(** * Lifecycle manager of the in-process application-security subsystem

    A shallow embedding of [internal/appsec/appsec.go]: the process-wide
    active instance, [Enabled], the package-level [Start] and [Stop],
    [setActiveAppSec], and the [start]/[stop] methods of an instance.

    Go pointers are addresses into append-only heaps (a garbage-collected
    language never frees an object that is still referenced), [nil] is [None].
    Every operation runs in a small state monad over the process state whose
    only failure is a Go panic.  Besides the state proper, the process state
    carries the log output and a trace of the effects performed, in program
    order, which is what the ordering properties are stated on. *)

From Stdlib Require Import String ZArith List Bool Lia.
From stdpp Require Import base option list.
Import ListNotations.

Local Open Scope string_scope.
Local Open Scope list_scope.

(** ** Data model *)

Abbreviation addr := nat (only parsing).

(** Go's [error] values; [wrapError] is [fmt.Errorf] with the [%w] verb. *)
Inductive error :=
| errorString (msg : string)
| wrapError (msg : string) (inner : error).

(** [config.RulesFragment]: the type is declared outside this file; a ruleset
    is consumed as an opaque, versioned bundle, so it is modelled by its
    version number. *)
Definition RulesFragment := nat.

(** Modelled from the spec: the declaration of [config.Config] is missing;
    the configuration inputs read here are the rate-limit capacity
    ([cfg.TraceRateLimit]) and the initial ruleset
    ([cfg.RulesManager.Latest]). *)
Record Config := {
  TraceRateLimit : Z;
  RulesManager_Latest : RulesFragment
}.

Definition StartOption := Config -> Config.

(** Modelled from the spec: [limiter.TokenTicker] belongs to an external
    module; a token bucket with its current token count, its capacity and a
    running flag for the background ticking activity. *)
Record TokenTicker := {
  tokens : Z;
  maxTokens : Z;
  running : bool
}.

(** Modelled from the spec: the engine handle type [wafHandle] is declared
    in a file that is missing; a handle remembers the ruleset it was built
    from and whether [Close] was called on it. *)
Record wafHandleT := {
  handleRules : RulesFragment;
  closed : bool
}.

(** [type appsec struct] *)
Record appsec := {
  cfg : Config;
  limiter : option addr;
  wafHandle : option addr;
  started : bool
}.

(** Modelled from the spec: the remote-configuration side of the contract
    ([startRC], [stopRC], [enableRemoteActivation], [enableRCBlocking],
    [disableRCBlocking]) is missing; the instance record has no field for
    it, so its state is process-wide. *)
Record RemoteConfig := {
  clientRunning : bool;
  remoteActivation : bool;
  blocking : bool
}.

Inductive Level := Debug | Info | Error.

Definition LogEntry : Type := Level * string * option error.

(** The effects a run performs, in program order. *)
Inductive Event :=
| EvLock | EvUnlock | EvRLock | EvRUnlock
| EvNewAppSec (a : addr)
| EvSetLimiter (a : addr) (t : option addr)
| EvSetWafHandle (a : addr) (h : option addr)
| EvSetStarted (a : addr) (b : bool)
| EvSetActive (a : option addr)
| EvNewTokenTicker (t : addr)
| EvLimiterStart (t : addr)
| EvLimiterStop (t : addr)
| EvNewWAFHandle (h : addr)
| EvHandleClose (h : addr)
| EvSwapRootOperation (r : option addr)
| EvStartRC (a : addr)
| EvStopRC (a : addr)
| EvEnableRemoteActivation (a : addr)
| EvEnableRCBlocking (a : addr)
| EvDisableRCBlocking (a : addr).

#[global] Instance Event_eq_dec : EqDecision Event.
Proof. solve_decision. Defined.

(** The process state: the three heaps, the package variables
    [activeAppSec] and (in [dyngo]) the root operation, identified by the
    engine handle whose detection hook it carries, the remote-configuration
    state, the log and the trace. *)
Record World := {
  instances : list appsec;
  tickers : list TokenTicker;
  handles : list wafHandleT;
  activeAppSec : option addr;
  rootOperation : option addr;
  rc : RemoteConfig;
  logs : list LogEntry;
  trace : list Event
}.

Definition set_instances (f : list appsec -> list appsec) (w : World) : World :=
  {| instances := f (instances w); tickers := tickers w; handles := handles w;
     activeAppSec := activeAppSec w; rootOperation := rootOperation w;
     rc := rc w; logs := logs w; trace := trace w |}.

Definition set_tickers (f : list TokenTicker -> list TokenTicker) (w : World) : World :=
  {| instances := instances w; tickers := f (tickers w); handles := handles w;
     activeAppSec := activeAppSec w; rootOperation := rootOperation w;
     rc := rc w; logs := logs w; trace := trace w |}.

Definition set_handles (f : list wafHandleT -> list wafHandleT) (w : World) : World :=
  {| instances := instances w; tickers := tickers w; handles := f (handles w);
     activeAppSec := activeAppSec w; rootOperation := rootOperation w;
     rc := rc w; logs := logs w; trace := trace w |}.

Definition set_activeAppSec (a : option addr) (w : World) : World :=
  {| instances := instances w; tickers := tickers w; handles := handles w;
     activeAppSec := a; rootOperation := rootOperation w;
     rc := rc w; logs := logs w; trace := trace w |}.

Definition set_rootOperation (r : option addr) (w : World) : World :=
  {| instances := instances w; tickers := tickers w; handles := handles w;
     activeAppSec := activeAppSec w; rootOperation := r;
     rc := rc w; logs := logs w; trace := trace w |}.

Definition set_rc (f : RemoteConfig -> RemoteConfig) (w : World) : World :=
  {| instances := instances w; tickers := tickers w; handles := handles w;
     activeAppSec := activeAppSec w; rootOperation := rootOperation w;
     rc := f (rc w); logs := logs w; trace := trace w |}.

Definition set_logs (f : list LogEntry -> list LogEntry) (w : World) : World :=
  {| instances := instances w; tickers := tickers w; handles := handles w;
     activeAppSec := activeAppSec w; rootOperation := rootOperation w;
     rc := rc w; logs := f (logs w); trace := trace w |}.

Definition set_trace (f : list Event -> list Event) (w : World) : World :=
  {| instances := instances w; tickers := tickers w; handles := handles w;
     activeAppSec := activeAppSec w; rootOperation := rootOperation w;
     rc := rc w; logs := logs w; trace := f (trace w) |}.

(** What the collaborators answer during one call: the configuration loader,
    the native engine, and the remote-configuration client. *)
Record Env := {
  config_IsEnabled : bool * bool * option error;
  waf_Health : bool * option error;
  waf_Load : bool * option error;
  config_NewConfig : Config * option error;
  newWAFHandle_err : RulesFragment -> option error;
  startRC_err : option error;
  enableRemoteActivation_err : option error
}.

(** ** The monad *)

Inductive Result (A : Type) :=
| Ok (x : A) (w : World)
| Panic.
Arguments Ok {A} x w.
Arguments Panic {A}.

Definition M (A : Type) := World -> Result A.

Definition ret {A} (x : A) : M A := fun w => Ok x w.

Definition bind {A B} (m : M A) (k : A -> M B) : M B :=
  fun w => match m w with
           | Ok x w' => k x w'
           | Panic => Panic
           end.

Notation "'let*' x ':=' c 'in' k" := (bind c (fun x => k))
  (at level 10, x pattern, c at level 100, k at level 200).

Definition emit (e : Event) : M unit :=
  fun w => Ok tt (set_trace (fun t => t ++ [e]) w).

Definition log (l : Level) (format : string) (err : option error) : M unit :=
  fun w => Ok tt (set_logs (fun ls => ls ++ [(l, format, err)]) w).

(** Reading and writing an instance through its pointer.  An address
    outside the heap cannot arise in Go; the model answers [Panic]. *)
Definition deref (a : addr) : M appsec :=
  fun w => match instances w !! a with
           | Some i => Ok i w
           | None => Panic
           end.

Definition assign (a : addr) (f : appsec -> appsec) : M unit :=
  fun w => match instances w !! a with
           | Some i => Ok tt (set_instances (fun l => <[a := f i]> l) w)
           | None => Panic
           end.

Definition set_limiter (a : addr) (t : option addr) : M unit :=
  let* _ := assign a (fun i => {| cfg := cfg i; limiter := t;
                                  wafHandle := wafHandle i; started := started i |}) in
  emit (EvSetLimiter a t).

Definition set_wafHandle (a : addr) (h : option addr) : M unit :=
  let* _ := assign a (fun i => {| cfg := cfg i; limiter := limiter i;
                                  wafHandle := h; started := started i |}) in
  emit (EvSetWafHandle a h).

Definition set_started (a : addr) (b : bool) : M unit :=
  let* _ := assign a (fun i => {| cfg := cfg i; limiter := limiter i;
                                  wafHandle := wafHandle i; started := b |}) in
  emit (EvSetStarted a b).

(** ** Collaborators *)

(** Modelled from the spec: [limiter.NewTokenTicker], [Start] and [Stop] of
    the external rate limiter.  [Start] launches the background ticking,
    [Stop] ends it; a method call through a nil pointer panics. *)
Definition alloc_ticker (tk : TokenTicker) : M addr :=
  fun w => Ok (length (tickers w)) (set_tickers (fun l => l ++ [tk]) w).

Definition limiter_NewTokenTicker (tok maxTok : Z) : M addr :=
  let* t := alloc_ticker {| tokens := tok; maxTokens := maxTok; running := false |} in
  let* _ := emit (EvNewTokenTicker t) in
  ret t.

Definition set_running (t : addr) (b : bool) : M unit :=
  fun w => match tickers w !! t with
           | Some tk => Ok tt (set_tickers (fun l =>
                          <[t := {| tokens := tokens tk; maxTokens := maxTokens tk;
                                    running := b |}]> l) w)
           | None => Panic
           end.

Definition limiter_Start (t : option addr) : M unit :=
  match t with
  | None => fun _ => Panic
  | Some t => let* _ := set_running t true in emit (EvLimiterStart t)
  end.

Definition limiter_Stop (t : option addr) : M unit :=
  match t with
  | None => fun _ => Panic
  | Some t => let* _ := set_running t false in emit (EvLimiterStop t)
  end.

(** Modelled from the spec: [NewEngineHandle(ruleset) -> (handle, err)] and
    [handle.Close()] of the native engine collaborator.  A failed
    construction allocates nothing. *)
Definition alloc_handle (hd : wafHandleT) : M addr :=
  fun w => Ok (length (handles w)) (set_handles (fun l => l ++ [hd]) w).

Definition newWAFHandle (env : Env) (rules : RulesFragment) : M (addr + error) :=
  match newWAFHandle_err env rules with
  | Some e => ret (inr e)
  | None =>
      let* h := alloc_handle {| handleRules := rules; closed := false |} in
      let* _ := emit (EvNewWAFHandle h) in
      ret (inl h)
  end.

Definition wafHandle_Close (h : addr) : M unit :=
  let* _ := (fun w => match handles w !! h with
                     | Some hd => Ok tt (set_handles (fun l =>
                                    <[h := {| handleRules := handleRules hd;
                                              closed := true |}]> l) w)
                     | None => Panic
                     end) in
  emit (EvHandleClose h).

(** Modelled from the spec: [dyngo.SwapRootOperation(newRootOrNil)], an
    atomic replacement of the single process-wide root listener node;
    swapping to nil detaches the root. *)
Definition dyngo_SwapRootOperation (r : option addr) : M unit :=
  let* _ := (fun w => Ok tt (set_rootOperation r w)) in
  emit (EvSwapRootOperation r).

(** Modelled from the spec: the remote-configuration methods of an
    instance, each reduced to its effect on the remote-configuration state.
    [startRC] and [enableRemoteActivation] can fail, and then change
    nothing. *)
Definition startRC (env : Env) (a : addr) : M (option error) :=
  match startRC_err env with
  | Some e => ret (Some e)
  | None =>
      let* _ := (fun w => Ok tt (set_rc (fun r =>
                   {| clientRunning := true; remoteActivation := remoteActivation r;
                      blocking := blocking r |}) w)) in
      let* _ := emit (EvStartRC a) in
      ret None
  end.

Definition stopRC (a : addr) : M unit :=
  let* _ := (fun w => Ok tt (set_rc (fun r =>
               {| clientRunning := false; remoteActivation := remoteActivation r;
                  blocking := blocking r |}) w)) in
  emit (EvStopRC a).

Definition enableRemoteActivation (env : Env) (a : addr) : M (option error) :=
  match enableRemoteActivation_err env with
  | Some e => ret (Some e)
  | None =>
      let* _ := (fun w => Ok tt (set_rc (fun r =>
                   {| clientRunning := clientRunning r; remoteActivation := true;
                      blocking := blocking r |}) w)) in
      let* _ := emit (EvEnableRemoteActivation a) in
      ret None
  end.

Definition enableRCBlocking (a : addr) : M unit :=
  let* _ := (fun w => Ok tt (set_rc (fun r =>
               {| clientRunning := clientRunning r;
                  remoteActivation := remoteActivation r; blocking := true |}) w)) in
  emit (EvEnableRCBlocking a).

Definition disableRCBlocking (a : addr) : M unit :=
  let* _ := (fun w => Ok tt (set_rc (fun r =>
               {| clientRunning := clientRunning r;
                  remoteActivation := remoteActivation r; blocking := false |}) w)) in
  emit (EvDisableRCBlocking a).

(** Modelled from the spec: [swapWAF] (the spec's SwapRuleset) is declared
    in a file that is missing.  It constructs a new engine handle from the
    ruleset; on construction failure it leaves the existing handle untouched
    and returns the error; on success it registers the new handle's
    detection hook as the root of the protection registry, replacing the
    previous root, installs the new handle and closes the previous one. *)
Definition swapWAF (env : Env) (a : addr) (rules : RulesFragment) : M (option error) :=
  let* r := newWAFHandle env rules in
  match r with
  | inr err => ret (Some err)
  | inl newHandle =>
      let* _ := dyngo_SwapRootOperation (Some newHandle) in
      let* i := deref a in
      let oldHandle := wafHandle i in
      let* _ := set_wafHandle a (Some newHandle) in
      let* _ := match oldHandle with
                | Some h => wafHandle_Close h
                | None => ret tt
                end in
      ret None
  end.

(** ** The package [appsec] *)

(** [func Enabled() bool] *)
Definition Enabled : M bool :=
  let* _ := emit EvRLock in
  let* r := (fun w => match activeAppSec w with
                     | None => Ok false w
                     | Some a => (let* i := deref a in ret (started i)) w
                     end) in
  let* _ := emit EvRUnlock in
  ret r.

(** [func logUnexpectedStartError(err error)] *)
Definition logUnexpectedStartError (err : error) : M unit :=
  log Error "appsec: could not start because of an unexpected error: %v\nNo security activities will be collected. Please contact support at https://docs.datadoghq.com/help/ for help." (Some err).

(** [func newAppSec(cfg *config.Config) *appsec] *)
Definition newAppSec (c : Config) : M addr :=
  let* a := (fun w => Ok (length (instances w))
                        (set_instances (fun l => l ++ [{| cfg := c; limiter := None;
                                                          wafHandle := None;
                                                          started := false |}]) w)) in
  let* _ := emit (EvNewAppSec a) in
  ret a.

(** [func (a *appsec) start() error] *)
Definition start (env : Env) (a : addr) : M (option error) :=
  let proceed : M (option error) :=
    let* i := deref a in
    let* t := limiter_NewTokenTicker (TraceRateLimit (cfg i)) (TraceRateLimit (cfg i)) in
    let* _ := set_limiter a (Some t) in
    let* i := deref a in
    let* _ := limiter_Start (limiter i) in
    let* i := deref a in
    let* err := swapWAF env a (RulesManager_Latest (cfg i)) in
    match err with
    | Some e => ret (Some e)
    | None =>
        let* _ := enableRCBlocking a in
        let* _ := set_started a true in
        let* _ := log Info "appsec: up and running" None in
        ret None
    end in
  match waf_Load env with
  | (ok, Some err) =>
      if negb ok then
        ret (Some (wrapError "error while loading libddwaf: %w" err))
      else
        let* _ := log Error "appsec: non-critical error while loading libddwaf: %v" (Some err) in
        proceed
  | (_, None) => proceed
  end.

(** [func (a *appsec) stop()] *)
Definition stop (a : addr) : M unit :=
  let* i := deref a in
  if negb (started i) then ret tt
  else
    let* _ := set_started a false in
    let* _ := disableRCBlocking a in
    let* _ := dyngo_SwapRootOperation None in
    let* i := deref a in
    let* _ := match wafHandle i with
              | Some h =>
                  let* _ := wafHandle_Close h in
                  set_wafHandle a None
              | None => ret tt
              end in
    let* i := deref a in
    limiter_Stop (limiter i).

(** [func setActiveAppSec(a *appsec)] *)
Definition setActiveAppSec (a : option addr) : M unit :=
  let* _ := emit EvLock in
  let* _ := (fun w => match activeAppSec w with
                     | Some old => (let* _ := stopRC old in stop old) w
                     | None => Ok tt w
                     end) in
  let* _ := (fun w => Ok tt (set_activeAppSec a w)) in
  let* _ := emit (EvSetActive a) in
  emit EvUnlock.

(** [func Stop()] *)
Definition Stop : M unit := setActiveAppSec None.

(** [for _, opt := range opts { opt(cfg) }] *)
Definition apply_opts (opts : list StartOption) (c : Config) : Config :=
  fold_left (fun c (opt : StartOption) => opt c) opts c.

(** [func Start(opts ...config.StartOption)] *)
Definition Start (env : Env) (opts : list StartOption) : M unit :=
  let '(enabled, set, err) := config_IsEnabled env in
  match err with
  | Some e => logUnexpectedStartError e
  | None =>
      if set && negb enabled then
        log Debug "appsec: disabled by the configuration: set the environment variable DD_APPSEC_ENABLED to true to enable it" None
      else
        let '(ok, herr) := waf_Health env in
        if negb ok then
          if set then
            log Error "appsec: threats detection cannot be enabled for the following reasons: %vappsec: no security activities will be collected. Please contact support at https://docs.datadoghq.com/help/ for help." herr
          else
            log Debug "appsec: remote activation of threats detection cannot be enabled for the following reasons: %v" herr
        else
          match config_NewConfig env with
          | (_, Some e) => logUnexpectedStartError e
          | (c, None) =>
              let c := apply_opts opts c in
              let* appsec := newAppSec c in
              let* _ := log Debug "appsec: starting the remote configuration client" None in
              let* rcErr := startRC env appsec in
              let* _ := match rcErr with
                        | Some e => log Error "appsec: Remote config: disabled due to an instanciation error: %v" (Some e)
                        | None => ret tt
                        end in
              if negb set then
                let* _ := log Debug "appsec: %s is not set, appsec won't start until activated through remote configuration" None in
                let* err := enableRemoteActivation env appsec in
                match err with
                | Some e =>
                    let* _ := logUnexpectedStartError e in
                    stopRC appsec
                | None =>
                    let* _ := log Debug "appsec: awaiting for possible remote activation" None in
                    setActiveAppSec (Some appsec)
                end
              else
                let* err := start env appsec in
                match err with
                | Some e =>
                    let* _ := logUnexpectedStartError e in
                    stopRC appsec
                | None => setActiveAppSec (Some appsec)
                end
          end
  end.

(** ** Observations and auxiliary definitions used by the statements *)

(** The value an operation returns, [None] when it panics. *)
Definition value {A} (r : Result A) : option A :=
  match r with
  | Ok x _ => Some x
  | Panic => None
  end.

Definition ticker_running (w : World) (t : addr) : bool :=
  match tickers w !! t with
  | Some tk => running tk
  | None => false
  end.

Definition handle_closed (w : World) (h : addr) : bool :=
  match handles w !! h with
  | Some hd => closed hd
  | None => false
  end.

(** The instance invariant: a started instance owns an engine handle and a
    limiter, both allocated; an instance that is not started has no engine
    handle. *)
Definition inst_ok (w : World) (i : appsec) : bool :=
  if started i then
    match wafHandle i, limiter i with
    | Some h, Some t => (h <? length (handles w))%nat && (t <? length (tickers w))%nat
    | _, _ => false
    end
  else
    match wafHandle i with
    | None => true
    | Some _ => false
    end.

Definition inst_inv (w : World) (a : addr) : Prop :=
  exists i, instances w !! a = Some i /\ inst_ok w i = true.

(** Sequences of [start]/[stop] calls on one instance. *)
Inductive Call :=
| CallStart (env : Env)
| CallStop.

Definition call (a : addr) (c : Call) : M unit :=
  match c with
  | CallStart env => let* _ := start env a in ret tt
  | CallStop => stop a
  end.

Fixpoint calls (a : addr) (cs : list Call) : M unit :=
  match cs with
  | [] => ret tt
  | c :: cs' => let* _ := call a c in calls a cs'
  end.

(** The load outcome that [start] treats as fatal, and what a tolerated
    load leaves in the log. *)
Definition load_fatal (env : Env) : bool :=
  match waf_Load env with
  | (false, Some _) => true
  | _ => false
  end.

Definition load_logs (env : Env) : list LogEntry :=
  match waf_Load env with
  | (true, Some e) =>
      [(Error, "appsec: non-critical error while loading libddwaf: %v", Some e)]
  | _ => []
  end.

(** Whether [start] returns an error for an instance configured with [c]. *)
Definition start_fails (env : Env) (c : Config) : bool :=
  load_fatal env ||
  match newWAFHandle_err env (RulesManager_Latest c) with
  | Some _ => true
  | None => false
  end.

Definition with_Load (l : bool * option error) (env : Env) : Env :=
  {| config_IsEnabled := config_IsEnabled env; waf_Health := waf_Health env;
     waf_Load := l; config_NewConfig := config_NewConfig env;
     newWAFHandle_err := newWAFHandle_err env; startRC_err := startRC_err env;
     enableRemoteActivation_err := enableRemoteActivation_err env |}.

(** *** The worlds the operations produce *)

Definition fresh_instance (c : Config) : appsec :=
  {| cfg := c; limiter := None; wafHandle := None; started := false |}.

Definition stopped_instance (i : appsec) : appsec :=
  {| cfg := cfg i; limiter := limiter i; wafHandle := None; started := false |}.

Definition close_handle (h : option addr) (hs : list wafHandleT) : list wafHandleT :=
  match h with
  | Some h =>
      match hs !! h with
      | Some hd => <[h := {| handleRules := handleRules hd; closed := true |}]> hs
      | None => hs
      end
  | None => hs
  end.

Definition stop_ticker (t : option addr) (ts : list TokenTicker) : list TokenTicker :=
  match t with
  | Some t =>
      match ts !! t with
      | Some tk => <[t := {| tokens := tokens tk; maxTokens := maxTokens tk;
                             running := false |}]> ts
      | None => ts
      end
  | None => ts
  end.

(** The effects of [stop] on a started instance, in program order. *)
Definition stop_events (a : addr) (i : appsec) : list Event :=
  [EvSetStarted a false; EvDisableRCBlocking a; EvSwapRootOperation None]
  ++ match wafHandle i with
     | Some h => [EvHandleClose h; EvSetWafHandle a None]
     | None => []
     end
  ++ match limiter i with
     | Some t => [EvLimiterStop t]
     | None => []
     end.

Definition stopped_world (a : addr) (i : appsec) (w : World) : World :=
  {| instances := <[a := stopped_instance i]> (instances w);
     tickers := stop_ticker (limiter i) (tickers w);
     handles := close_handle (wafHandle i) (handles w);
     activeAppSec := activeAppSec w;
     rootOperation := None;
     rc := {| clientRunning := clientRunning (rc w);
              remoteActivation := remoteActivation (rc w); blocking := false |};
     logs := logs w;
     trace := trace w ++ stop_events a i |}.

Definition new_ticker (i : appsec) : TokenTicker :=
  {| tokens := TraceRateLimit (cfg i); maxTokens := TraceRateLimit (cfg i);
     running := true |}.

Definition new_handle (i : appsec) : wafHandleT :=
  {| handleRules := RulesManager_Latest (cfg i); closed := false |}.

(** The effects of a successful [start], in program order. *)
Definition start_events (a : addr) (i : appsec) (w : World) : list Event :=
  [EvNewTokenTicker (length (tickers w)); EvSetLimiter a (Some (length (tickers w)));
   EvLimiterStart (length (tickers w)); EvNewWAFHandle (length (handles w));
   EvSwapRootOperation (Some (length (handles w)));
   EvSetWafHandle a (Some (length (handles w)))]
  ++ match wafHandle i with
     | Some h => [EvHandleClose h]
     | None => []
     end
  ++ [EvEnableRCBlocking a; EvSetStarted a true].

Definition started_world (env : Env) (a : addr) (i : appsec) (w : World) : World :=
  {| instances := <[a := {| cfg := cfg i; limiter := Some (length (tickers w));
                            wafHandle := Some (length (handles w)); started := true |}]>
                    (instances w);
     tickers := tickers w ++ [new_ticker i];
     handles := close_handle (wafHandle i) (handles w ++ [new_handle i]);
     activeAppSec := activeAppSec w;
     rootOperation := Some (length (handles w));
     rc := {| clientRunning := clientRunning (rc w);
              remoteActivation := remoteActivation (rc w); blocking := true |};
     logs := logs w ++ load_logs env ++ [(Info, "appsec: up and running", None)];
     trace := trace w ++ start_events a i w |}.

(** The world a [start] leaves when the ruleset fails to construct. *)
Definition failed_world (env : Env) (a : addr) (i : appsec) (w : World) : World :=
  {| instances := <[a := {| cfg := cfg i; limiter := Some (length (tickers w));
                            wafHandle := wafHandle i; started := started i |}]>
                    (instances w);
     tickers := tickers w ++ [new_ticker i];
     handles := handles w;
     activeAppSec := activeAppSec w;
     rootOperation := rootOperation w;
     rc := rc w;
     logs := logs w ++ load_logs env;
     trace := trace w ++ [EvNewTokenTicker (length (tickers w));
                          EvSetLimiter a (Some (length (tickers w)));
                          EvLimiterStart (length (tickers w))] |}.

(** The effects of constructing the new instance [b] and starting the
    remote-configuration client. *)
Definition created_events (env : Env) (b : addr) : list Event :=
  EvNewAppSec b :: match startRC_err env with
                   | Some _ => []
                   | None => [EvStartRC b]
                   end.

(** The world in which [Start] has constructed the new instance and started
    the remote-configuration client. *)
Definition created (env : Env) (c : Config) (w : World) : World :=
  {| instances := instances w ++ [fresh_instance c];
     tickers := tickers w; handles := handles w;
     activeAppSec := activeAppSec w; rootOperation := rootOperation w;
     rc := match startRC_err env with
           | Some _ => rc w
           | None => {| clientRunning := true;
                        remoteActivation := remoteActivation (rc w);
                        blocking := blocking (rc w) |}
           end;
     logs := logs w ++ (Debug, "appsec: starting the remote configuration client", None)
               :: match startRC_err env with
                  | Some e => [(Error, "appsec: Remote config: disabled due to an instanciation error: %v", Some e)]
                  | None => []
                  end;
     trace := trace w ++ created_events env (length (instances w)) |}.

(** The world in which the dormant new instance awaits remote activation. *)
Definition awaiting (b : addr) (w : World) : World :=
  {| instances := instances w; tickers := tickers w; handles := handles w;
     activeAppSec := activeAppSec w; rootOperation := rootOperation w;
     rc := {| clientRunning := clientRunning (rc w); remoteActivation := true;
              blocking := blocking (rc w) |};
     logs := logs w ++ [(Debug, "appsec: %s is not set, appsec won't start until activated through remote configuration", None);
                        (Debug, "appsec: awaiting for possible remote activation", None)];
     trace := trace w ++ [EvEnableRemoteActivation b] |}.

(** What [Start] does with the new instance [b] before it publishes it:
    [start] when enablement is explicit, the subscription to remote
    activation otherwise. *)
Definition prepared_events (env : Env) (set : bool) (b : addr) (c : Config)
    (w : World) : list Event :=
  created_events env b
  ++ if set then start_events b (fresh_instance c) (created env c w)
     else [EvEnableRemoteActivation b].

Definition prepared (env : Env) (set : bool) (c : Config) (w : World) : World :=
  if set then
    started_world env (length (instances w)) (fresh_instance c) (created env c w)
  else awaiting (length (instances w)) (created env c w).

(** Lines 79 to 94 of [Start], from the test of [set] on. *)
Definition Start_tail (env : Env) (set : bool) (appsec : addr) : M unit :=
  if negb set then
    let* _ := log Debug "appsec: %s is not set, appsec won't start until activated through remote configuration" None in
    let* err := enableRemoteActivation env appsec in
    match err with
    | Some e =>
        let* _ := logUnexpectedStartError e in
        stopRC appsec
    | None =>
        let* _ := log Debug "appsec: awaiting for possible remote activation" None in
        setActiveAppSec (Some appsec)
    end
  else
    let* err := start env appsec in
    match err with
    | Some e =>
        let* _ := logUnexpectedStartError e in
        stopRC appsec
    | None => setActiveAppSec (Some appsec)
    end.

(** The world in which an instance is abandoned after a failure. *)
Definition abandoned (e : error) (b : addr) (w : World) : World :=
  {| instances := instances w; tickers := tickers w; handles := handles w;
     activeAppSec := activeAppSec w; rootOperation := rootOperation w;
     rc := {| clientRunning := false; remoteActivation := remoteActivation (rc w);
              blocking := blocking (rc w) |};
     logs := logs w ++ [(Error, "appsec: could not start because of an unexpected error: %v\nNo security activities will be collected. Please contact support at https://docs.datadoghq.com/help/ for help.", Some e)];
     trace := trace w ++ [EvStopRC b] |}.

(** [setActiveAppSec] in three steps: the lock is taken and the old
    instance's remote-configuration client stopped, the old instance is
    stopped, the new one is published. *)
Definition locked (old : addr) (w : World) : World :=
  {| instances := instances w; tickers := tickers w; handles := handles w;
     activeAppSec := activeAppSec w; rootOperation := rootOperation w;
     rc := {| clientRunning := false; remoteActivation := remoteActivation (rc w);
              blocking := blocking (rc w) |};
     logs := logs w;
     trace := trace w ++ [EvLock; EvStopRC old] |}.

Definition torn_down (a : addr) (i : appsec) (w : World) : World :=
  if started i then stopped_world a i w else w.

Definition published (x : option addr) (w : World) : World :=
  {| instances := instances w; tickers := tickers w; handles := handles w;
     activeAppSec := x; rootOperation := rootOperation w;
     rc := rc w; logs := logs w;
     trace := trace w ++ [EvSetActive x; EvUnlock] |}.

(** *** Ordering of the old instance's teardown and the new instance's start *)

(** The effects of [start] that name the instance they are performed on. *)
Definition is_start_effect (b : addr) (e : Event) : bool :=
  match e with
  | EvSetLimiter b' _ => (b' =? b)%nat
  | EvSetWafHandle b' (Some _) => (b' =? b)%nat
  | EvEnableRCBlocking b' => (b' =? b)%nat
  | EvSetStarted b' true => (b' =? b)%nat
  | _ => false
  end.

(** No start effect of [b] occurs before the limiter [t] of the old
    instance is stopped, which is the last step of its [stop]. *)
Fixpoint stopped_first (t b : addr) (evs : list Event) : bool :=
  match evs with
  | [] => true
  | e :: evs' =>
      if bool_decide (e = EvLimiterStop t) then true
      else negb (is_start_effect b e) && stopped_first t b evs'
  end.

(** The reading under which a started old instance is fully stopped before
    any effect of the new instance's start. *)
Definition old_stopped_before_new_starts (env : Env) (opts : list StartOption)
    (w : World) : Prop :=
  forall a i t w' b,
    activeAppSec w = Some a -> instances w !! a = Some i ->
    started i = true -> limiter i = Some t ->
    Start env opts w = Ok tt w' -> activeAppSec w' = Some b -> b <> a ->
    stopped_first t b (drop (length (trace w)) (trace w')) = true.

(** The root of the protection registry after a run of events. *)
Fixpoint root_after (r : option addr) (evs : list Event) : option addr :=
  match evs with
  | [] => r
  | EvSwapRootOperation r' :: evs' => root_after r' evs'
  | _ :: evs' => root_after r evs'
  end.

(** *** Concrete inputs *)

Definition rc0 : RemoteConfig :=
  {| clientRunning := false; remoteActivation := false; blocking := false |}.

Definition world0 : World :=
  {| instances := []; tickers := []; handles := []; activeAppSec := None;
     rootOperation := None; rc := rc0; logs := []; trace := [] |}.

Definition cfg0 : Config := {| TraceRateLimit := 100; RulesManager_Latest := 1 |}.

(** [DD_APPSEC_ENABLED=true], a healthy engine and a ruleset that loads. *)
Definition env_ok : Env :=
  {| config_IsEnabled := (true, true, None); waf_Health := (true, None);
     waf_Load := (true, None); config_NewConfig := (cfg0, None);
     newWAFHandle_err := fun _ => None; startRC_err := None;
     enableRemoteActivation_err := None |}.

(** The same with a ruleset from which no engine handle can be built. *)
Definition env_bad_rules : Env :=
  {| config_IsEnabled := (true, true, None); waf_Health := (true, None);
     waf_Load := (true, None); config_NewConfig := (cfg0, None);
     newWAFHandle_err := fun _ => Some (errorString "invalid ruleset");
     startRC_err := None; enableRemoteActivation_err := None |}.

(** The engine loads with a warning, or not at all. *)
Definition env_degraded : Env :=
  with_Load (true, Some (errorString "degraded")) env_ok.

Definition env_unsupported : Env :=
  with_Load (false, Some (errorString "unsupported target")) env_ok.

(** The health probe fails while [DD_APPSEC_ENABLED=true]. *)
Definition env_unhealthy : Env :=
  {| config_IsEnabled := (true, true, None);
     waf_Health := (false, Some (errorString "unsupported target"));
     waf_Load := (true, None); config_NewConfig := (cfg0, None);
     newWAFHandle_err := fun _ => None; startRC_err := None;
     enableRemoteActivation_err := None |}.

(** [DD_APPSEC_ENABLED] unset and remote activation cannot be enabled. *)
Definition env_no_remote : Env :=
  {| config_IsEnabled := (false, false, None); waf_Health := (true, None);
     waf_Load := (true, None); config_NewConfig := (cfg0, None);
     newWAFHandle_err := fun _ => None; startRC_err := None;
     enableRemoteActivation_err := Some (errorString "no remote config") |}.

(** A process in which one instance, at address 0, is active and started:
    the state [Start] leaves when run with [env_ok] in [world0]. *)
Definition world_A : World :=
  {| instances := [{| cfg := cfg0; limiter := Some 0; wafHandle := Some 0;
                      started := true |}];
     tickers := [{| tokens := 100; maxTokens := 100; running := true |}];
     handles := [{| handleRules := 1; closed := false |}];
     activeAppSec := Some 0;
     rootOperation := Some 0;
     rc := {| clientRunning := true; remoteActivation := false; blocking := true |};
     logs := [];
     trace := [] |}.

(** A process with one instance that was created but never started. *)
Definition world_idle : World :=
  {| instances := [fresh_instance cfg0]; tickers := []; handles := [];
     activeAppSec := None; rootOperation := None; rc := rc0; logs := [];
     trace := [] |}.

(** *** Sequences of package-level calls *)

(** The active instance, when there is one, satisfies the instance
    invariant. *)
Definition world_ok (w : World) : Prop :=
  forall a, activeAppSec w = Some a -> inst_inv w a.

(** The registry root and the RC-blocking flag after a [start] or [stop]
    call on the instance [i]: a [start] that succeeds installs the
    new handle as the root and enables blocking, a [stop] of a started
    instance sets the root to nil and disables blocking, and every other
    call leaves both as they were. *)
Definition root_and_blocking (c : Call) (i : appsec) (w : World)
    : option addr * bool :=
  match c with
  | CallStart env =>
      if start_fails env (cfg i) then (rootOperation w, blocking (rc w))
      else (Some (length (handles w)), true)
  | CallStop =>
      if started i then (None, false) else (rootOperation w, blocking (rc w))
  end.

(** The options as Go passes them to [Start]: each is a function, or nil.
    Calling a nil option (line 69) panics, and a limiter created with a
    rate limit of zero brings the process down; neither is represented in
    the embedding, whose options are functions and whose limiter cannot
    fail.  The statements about whole calls of [Start] are therefore made
    for the calls that [start_safe] accepts: no option is nil, and the
    rate limit of the resulting configuration is not zero.  [Start] is
    then run on the functions of the options. *)
Definition option_funcs (gopts : list (option StartOption)) : list StartOption :=
  omap id gopts.

Definition non_nil (o : option StartOption) : bool :=
  match o with
  | Some _ => true
  | None => false
  end.

Definition start_safe (env : Env) (gopts : list (option StartOption)) : bool :=
  forallb non_nil gopts &&
  negb (TraceRateLimit (apply_opts (option_funcs gopts) (fst (config_NewConfig env)))
        =? 0)%Z.

Inductive PkgCall :=
| PkgStart (env : Env) (gopts : list (option StartOption))
| PkgStop.

Definition pkg_call (c : PkgCall) : M unit :=
  match c with
  | PkgStart env gopts => Start env (option_funcs gopts)
  | PkgStop => Stop
  end.

Definition pkg_call_safe (c : PkgCall) : bool :=
  match c with
  | PkgStart env gopts => start_safe env gopts
  | PkgStop => true
  end.

Fixpoint pkg_calls (cs : list PkgCall) : M unit :=
  match cs with
  | [] => ret tt
  | c :: cs' => let* _ := pkg_call c in pkg_calls cs'
  end.

(** Whether the active instance is started. *)
Definition active_started (w : World) : bool :=
  match activeAppSec w with
  | Some a =>
      match instances w !! a with
      | Some i => started i
      | None => false
      end
  | None => false
  end.

(** [DD_APPSEC_ENABLED] unset, remote activation available. *)
Definition env_remote : Env :=
  {| config_IsEnabled := (false, false, None); waf_Health := (true, None);
     waf_Load := (true, None); config_NewConfig := (cfg0, None);
     newWAFHandle_err := fun _ => None; startRC_err := None;
     enableRemoteActivation_err := None |}.

(** [DD_APPSEC_ENABLED=false]. *)
Definition env_disabled : Env :=
  {| config_IsEnabled := (false, true, None); waf_Health := (true, None);
     waf_Load := (true, None); config_NewConfig := (cfg0, None);
     newWAFHandle_err := fun _ => None; startRC_err := None;
     enableRemoteActivation_err := None |}.

(** The configuration cannot be read. *)
Definition env_config_error : Env :=
  {| config_IsEnabled := (false, false, Some (errorString "bad DD_APPSEC_ENABLED"));
     waf_Health := (true, None);
     waf_Load := (true, None); config_NewConfig := (cfg0, None);
     newWAFHandle_err := fun _ => None; startRC_err := None;
     enableRemoteActivation_err := None |}.

(** An option that raises the rate limit. *)
Definition opt_rate (n : Z) : StartOption :=
  fun c => {| TraceRateLimit := n; RulesManager_Latest := RulesManager_Latest c |}.

(** Whether [Start] gets as far as constructing the new instance: the
    enablement is read without error and is not an explicit false, the
    engine is healthy, and the configuration is read without error. *)
Definition constructs (env : Env) : bool :=
  match config_IsEnabled env with
  | (enabled, set, None) =>
      negb (set && negb enabled) && fst (waf_Health env) &&
      match config_NewConfig env with
      | (_, None) => true
      | (_, Some _) => false
      end
  | (_, _, Some _) => false
  end.

(** Whether [Start] publishes the instance it constructs: its [start]
    succeeds under explicit enablement, its subscription to remote
    activation succeeds otherwise. *)
Definition publishes (env : Env) (opts : list StartOption) : bool :=
  constructs env &&
  if snd (fst (config_IsEnabled env)) then
    negb (start_fails env (apply_opts opts (fst (config_NewConfig env))))
  else
    match enableRemoteActivation_err env with
    | None => true
    | Some _ => false
    end.

(** ** Symbolic execution *)

Lemma insert_snoc {A} (l : list A) (x y : A) :
  <[length l := y]> (l ++ [x]) = l ++ [y].
Proof.
  rewrite insert_app_r_alt by lia. now rewrite Nat.sub_diag.
Qed.

Ltac heap_len := rewrite ?length_insert, ?length_app; simpl; lia.

Ltac heap_simpl :=
  repeat first
    [ rewrite list_lookup_insert_eq by heap_len
    | rewrite list_lookup_insert_ne by lia
    | rewrite list_lookup_middle by reflexivity
    | rewrite lookup_app_l by heap_len
    | rewrite list_insert_insert_eq
    | rewrite insert_snoc ].

Ltac use_hyps :=
  repeat match goal with
         | H : _ !! _ = _ |- _ => rewrite H
         | H : started _ = _ |- _ => rewrite H
         | H : limiter _ = _ |- _ => rewrite H
         | H : wafHandle _ = _ |- _ => rewrite H
         | H : activeAppSec _ = _ |- _ => rewrite H
         end.

Ltac mrun :=
  repeat (progress (
    unfold bind, ret, emit, log, deref, assign, set_started, set_wafHandle,
      set_limiter, set_running, wafHandle_Close, dyngo_SwapRootOperation,
      alloc_ticker, alloc_handle, limiter_NewTokenTicker, limiter_Start,
      limiter_Stop, stopRC, enableRCBlocking, disableRCBlocking,
      set_instances, set_tickers, set_handles, set_activeAppSec,
      set_rootOperation, set_rc, set_logs, set_trace;
    simpl; use_hyps; heap_simpl)).

Ltac not_in_list :=
  repeat (apply not_elem_of_cons; split; [discriminate|]); apply not_elem_of_nil.

(** ** The instance invariant *)

Lemma inst_ok_started w i :
  inst_ok w i = true -> started i = true ->
  exists h t, wafHandle i = Some h /\ limiter i = Some t /\
              h < length (handles w) /\ t < length (tickers w).
Proof.
  unfold inst_ok. intros H Hs. rewrite Hs in H.
  destruct (wafHandle i) as [h|]; [|discriminate].
  destruct (limiter i) as [t|]; [|discriminate].
  apply andb_true_iff in H as [Hh Ht].
  apply Nat.ltb_lt in Hh. apply Nat.ltb_lt in Ht. eauto 10.
Qed.

Lemma inst_ok_not_started w i :
  inst_ok w i = true -> started i = false -> wafHandle i = None.
Proof.
  unfold inst_ok. intros H Hs. rewrite Hs in H.
  now destruct (wafHandle i).
Qed.

Lemma inst_ok_handle w i h :
  inst_ok w i = true -> wafHandle i = Some h -> is_Some (handles w !! h).
Proof.
  intros H Hh. destruct (started i) eqn:Hs.
  - destruct (inst_ok_started w i H Hs) as (h' & t & Hh' & _ & Hlt & _).
    apply lookup_lt_is_Some. congruence.
  - rewrite (inst_ok_not_started w i H Hs) in Hh. discriminate.
Qed.

Lemma inst_ok_mono w w' i :
  length (handles w) <= length (handles w') ->
  length (tickers w) <= length (tickers w') ->
  inst_ok w i = true -> inst_ok w' i = true.
Proof.
  unfold inst_ok. intros Hh Ht.
  destruct (started i); [|tauto].
  destruct (wafHandle i) as [h|]; [|tauto].
  destruct (limiter i) as [t|]; [|tauto].
  rewrite !andb_true_iff, !Nat.ltb_lt. lia.
Qed.

Lemma length_close_handle h hs : length (close_handle h hs) = length hs.
Proof.
  unfold close_handle. destruct h as [h|]; [|reflexivity].
  destruct (hs !! h); [apply length_insert|reflexivity].
Qed.

Lemma length_stop_ticker t ts : length (stop_ticker t ts) = length ts.
Proof.
  unfold stop_ticker. destruct t as [t|]; [|reflexivity].
  destruct (ts !! t); [apply length_insert|reflexivity].
Qed.

(** ** What each operation computes *)

Lemma stop_not_started w a i :
  instances w !! a = Some i -> started i = false -> stop a w = Ok tt w.
Proof.
  intros Hi Hs. unfold stop, bind, deref. rewrite Hi, Hs. reflexivity.
Qed.

Lemma stop_started w a i t :
  instances w !! a = Some i -> started i = true ->
  limiter i = Some t -> is_Some (tickers w !! t) ->
  (forall h, wafHandle i = Some h -> is_Some (handles w !! h)) ->
  stop a w = Ok tt (stopped_world a i w).
Proof.
  intros Hi Hs Hl [tk Htk] Hh.
  pose proof (lookup_lt_Some _ _ _ Hi) as Hlen.
  unfold stop, stopped_world, stopped_instance, stop_events, close_handle, stop_ticker.
  destruct (wafHandle i) as [h|] eqn:Eh.
  - destruct (Hh h eq_refl) as [hd Hhd]. mrun. rewrite <- !app_assoc. reflexivity.
  - mrun. rewrite <- !app_assoc. reflexivity.
Qed.

Lemma stop_started_ok w a i :
  instances w !! a = Some i -> started i = true -> inst_ok w i = true ->
  stop a w = Ok tt (stopped_world a i w).
Proof.
  intros Hi Hs Hok.
  destruct (inst_ok_started w i Hok Hs) as (h & t & Hh & Hl & Hhlt & Htlt).
  apply (stop_started w a i t Hi Hs Hl).
  - now apply lookup_lt_is_Some_2.
  - intros h' Hh'. eapply inst_ok_handle; eauto.
Qed.

Lemma swapWAF_failure env a rules w e :
  newWAFHandle_err env rules = Some e -> swapWAF env a rules w = Ok (Some e) w.
Proof.
  intros H. unfold swapWAF, newWAFHandle. rewrite H. reflexivity.
Qed.

Lemma start_fatal env a w e :
  waf_Load env = (false, Some e) ->
  start env a w = Ok (Some (wrapError "error while loading libddwaf: %w" e)) w.
Proof. intros H. unfold start. rewrite H. reflexivity. Qed.

Lemma load_fatal_inv env :
  load_fatal env = true -> exists e, waf_Load env = (false, Some e).
Proof.
  unfold load_fatal. destruct (waf_Load env) as [[|] [e|]]; try discriminate. eauto.
Qed.

Lemma start_success env a i w :
  instances w !! a = Some i ->
  (forall h, wafHandle i = Some h -> is_Some (handles w !! h)) ->
  load_fatal env = false ->
  newWAFHandle_err env (RulesManager_Latest (cfg i)) = None ->
  start env a w = Ok None (started_world env a i w).
Proof.
  intros Hi Hh Hf Hn.
  pose proof (lookup_lt_Some _ _ _ Hi) as Hlen.
  unfold start, started_world, start_events, load_fatal, load_logs, close_handle in *.
  destruct (waf_Load env) as [[|] [e|]]; try discriminate;
    destruct (wafHandle i) as [h|] eqn:Eh;
    try (destruct (Hh h eq_refl) as [hd Hhd]; pose proof (lookup_lt_Some _ _ _ Hhd));
    mrun; unfold swapWAF, newWAFHandle; rewrite Hn; mrun;
    rewrite <- ?app_assoc; reflexivity.
Qed.

Lemma start_failure env a i w e :
  instances w !! a = Some i ->
  load_fatal env = false ->
  newWAFHandle_err env (RulesManager_Latest (cfg i)) = Some e ->
  start env a w = Ok (Some e) (failed_world env a i w).
Proof.
  intros Hi Hf Hn.
  pose proof (lookup_lt_Some _ _ _ Hi) as Hlen.
  unfold start, failed_world, load_fatal, load_logs in *.
  destruct (waf_Load env) as [[|] [e'|]]; try discriminate;
    mrun; unfold swapWAF, newWAFHandle; rewrite Hn; mrun;
    rewrite <- ?app_assoc, ?app_nil_r; reflexivity.
Qed.

Lemma start_returns_error_iff env a i w :
  instances w !! a = Some i ->
  (forall h, wafHandle i = Some h -> is_Some (handles w !! h)) ->
  (exists e w', start env a w = Ok (Some e) w') <-> start_fails env (cfg i) = true.
Proof.
  intros Hi Hh. unfold start_fails. split.
  - intros (e & w' & Hs). destruct (load_fatal env) eqn:Hf; [reflexivity|]. simpl.
    destruct (newWAFHandle_err env (RulesManager_Latest (cfg i))) eqn:Hn; [reflexivity|].
    rewrite (start_success env a i w Hi Hh Hf Hn) in Hs. discriminate.
  - intros H. destruct (load_fatal env) eqn:Hf.
    + destruct (load_fatal_inv env Hf) as [e He]. eexists _, _.
      apply (start_fatal env a w e He).
    + simpl in H.
      destruct (newWAFHandle_err env (RulesManager_Latest (cfg i))) eqn:Hn; [|discriminate].
      eexists _, _. apply (start_failure env a i w e Hi Hf Hn).
Qed.

Lemma created_fresh env c w :
  instances (created env c w) !! length (instances w) = Some (fresh_instance c).
Proof. simpl. now rewrite list_lookup_middle. Qed.

Lemma Start_reaches_tail env opts w enabled set c :
  config_IsEnabled env = (enabled, set, None) ->
  set && negb enabled = false ->
  fst (waf_Health env) = true ->
  config_NewConfig env = (c, None) ->
  Start env opts w =
  Start_tail env set (length (instances w)) (created env (apply_opts opts c) w).
Proof.
  intros He Hd Hh Hc. unfold Start, Start_tail, created, created_events.
  rewrite He, Hd, Hc. destruct (waf_Health env) as [ok herr]. simpl in Hh. subst ok.
  cbn [negb]. unfold bind at 1 2 3 4, newAppSec, startRC.
  destruct (startRC_err env); mrun; rewrite <- ?app_assoc; reflexivity.
Qed.

Lemma abandon_ok e b w :
  (let* _ := logUnexpectedStartError e in stopRC b) w = Ok tt (abandoned e b w).
Proof. reflexivity. Qed.

Lemma await_ok env b w :
  enableRemoteActivation_err env = None ->
  Start_tail env false b w = setActiveAppSec (Some b) (awaiting b w).
Proof.
  intros Hn. unfold Start_tail, enableRemoteActivation. rewrite Hn.
  cbn [negb]. unfold awaiting. mrun. rewrite <- ?app_assoc. reflexivity.
Qed.

Lemma setActiveAppSec_nil x w :
  activeAppSec w = None ->
  setActiveAppSec x w = Ok tt (published x (set_trace (fun t => t ++ [EvLock]) w)).
Proof.
  intros Hn. unfold setActiveAppSec, published. mrun.
  rewrite <- !app_assoc. reflexivity.
Qed.

Lemma setActiveAppSec_active x w a i :
  activeAppSec w = Some a -> instances w !! a = Some i -> inst_ok w i = true ->
  setActiveAppSec x w = Ok tt (published x (torn_down a i (locked a w))).
Proof.
  intros Ha Hi Hok.
  assert (Hstop : stop a (locked a w) = Ok tt (torn_down a i (locked a w))).
  { unfold torn_down. destruct (started i) eqn:Hs.
    - apply stop_started_ok; auto.
    - apply (stop_not_started _ _ i); auto. }
  unfold setActiveAppSec, bind, emit, stopRC.
  cbn -[stop]. rewrite Ha. cbn -[stop].
  replace (set_trace _ (set_rc _ (set_trace _ w))) with (locked a w)
    by (unfold locked, set_trace, set_rc; simpl; now rewrite <- app_assoc).
  rewrite Hstop. unfold published, set_trace, set_activeAppSec. simpl.
  rewrite <- app_assoc. reflexivity.
Qed.

Lemma Enabled_value w :
  value (Enabled w) =
  match activeAppSec w with
  | None => Some false
  | Some a => started <$> instances w !! a
  end.
Proof.
  unfold Enabled. mrun. destruct (activeAppSec w) as [a|]; [|reflexivity].
  mrun. destruct (instances w !! a); reflexivity.
Qed.

(** ** Replacing the active instance *)

Lemma root_after_app r l1 l2 :
  root_after r (l1 ++ l2) = root_after (root_after r l1) l2.
Proof.
  revert r. induction l1 as [|e l1 IH]; intros r; [reflexivity|].
  destruct e; simpl; apply IH.
Qed.

Lemma torn_down_stopped a i w :
  instances w !! a = Some i -> inst_ok w i = true -> started i = true ->
  exists i',
    instances (torn_down a i w) !! a = Some i' /\
    started i' = false /\ wafHandle i' = None /\
    (forall h, wafHandle i = Some h -> handle_closed (torn_down a i w) h = true) /\
    (forall t, limiter i = Some t -> ticker_running (torn_down a i w) t = false).
Proof.
  intros Hi Hok Hs.
  destruct (inst_ok_started w i Hok Hs) as (h & t & Hh & Hl & Hhlt & Htlt).
  destruct (lookup_lt_is_Some_2 _ _ Hhlt) as [hd Hhd].
  destruct (lookup_lt_is_Some_2 _ _ Htlt) as [tk Htk].
  pose proof (lookup_lt_Some _ _ _ Hi) as Hlen.
  unfold torn_down. rewrite Hs. exists (stopped_instance i).
  unfold handle_closed, ticker_running, stopped_world, close_handle, stop_ticker.
  simpl. rewrite Hh, Hl, Hhd, Htk.
  split; [now apply list_lookup_insert_eq|].
  split; [reflexivity|]. split; [reflexivity|]. split.
  - intros h' [= <-]. now rewrite list_lookup_insert_eq.
  - intros t' [= <-]. now rewrite list_lookup_insert_eq.
Qed.

Lemma Start_tail_prepared env (set : bool) c w :
  (if set then start_fails env c = false else enableRemoteActivation_err env = None) ->
  Start_tail env set (length (instances w)) (created env c w) =
  setActiveAppSec (Some (length (instances w))) (prepared env set c w).
Proof.
  intros H. unfold prepared. destruct set.
  - unfold start_fails in H. apply orb_false_iff in H as [Hf Hn].
    destruct (newWAFHandle_err env (RulesManager_Latest c)) eqn:Hn'; [discriminate|].
    unfold Start_tail. cbn [negb]. unfold bind at 1.
    rewrite (start_success env _ (fresh_instance c) _ (created_fresh env c w)); auto.
    intros h Hh. discriminate.
  - now apply await_ok.
Qed.

Lemma prepared_facts env set c w a i :
  activeAppSec w = Some a -> instances w !! a = Some i -> inst_ok w i = true ->
  activeAppSec (prepared env set c w) = Some a /\
  instances (prepared env set c w) !! a = Some i /\
  inst_ok (prepared env set c w) i = true /\
  trace (prepared env set c w) =
    trace w ++ prepared_events env set (length (instances w)) c w /\
  rootOperation (prepared env set c w) =
    root_after (rootOperation w) (prepared_events env set (length (instances w)) c w).
Proof.
  intros Ha Hi Hok. pose proof (lookup_lt_Some _ _ _ Hi) as Hlen.
  unfold prepared, prepared_events. destruct set.
  - split; [exact Ha|]. split; [|split; [|split]].
    + simpl. rewrite list_lookup_insert_ne by lia. now rewrite lookup_app_l.
    + eapply inst_ok_mono; [| |exact Hok]; simpl; rewrite length_app; lia.
    + simpl. now rewrite <- app_assoc.
    + rewrite root_after_app. unfold created_events, start_events. simpl.
      destruct (startRC_err env); reflexivity.
  - split; [exact Ha|]. split; [|split; [|split]].
    + simpl. now rewrite lookup_app_l.
    + exact Hok.
    + simpl. now rewrite <- app_assoc.
    + unfold created_events. simpl. destruct (startRC_err env); reflexivity.
Qed.

(** ** C1: replacing the active instance *)

(** The order of the effects in the run of C1, evaluated. *)
Lemma Start_on_world_A :
  exists w',
    Start env_ok [] world_A = Ok tt w' /\
    activeAppSec w' = Some 1 /\
    stopped_first 0 1 (drop (length (trace world_A)) (trace w')) = false.
Proof. vm_compute. eexists. repeat split. Qed.

(** In that run the old instance is not stopped first: the new instance 1
    is started (its limiter, handle and [started] flag are set) before the
    limiter of instance 0 is stopped. *)
Lemma old_not_stopped_before_new_starts :
  ~ old_stopped_before_new_starts env_ok [] world_A.
Proof.
  intros H. destruct Start_on_world_A as (w' & Hrun & Hact & Hfirst).
  assert (Hne : 1 <> 0) by discriminate.
  pose proof (H 0 {| cfg := cfg0; limiter := Some 0; wafHandle := Some 0;
                     started := true |} 0 w' 1
                eq_refl eq_refl eq_refl eq_refl Hrun Hact Hne) as Hc.
  rewrite Hfirst in Hc. discriminate.
Qed.

(** C1 fails on the code.  [Start] with [DD_APPSEC_ENABLED=true] in a
    process whose active instance 0 is started: the new instance 1 runs its
    whole [start] (limiter created and started, handle built and installed
    as the registry root, RC blocking enabled, [started] set) before the
    lock is taken, and the teardown of instance 0 comes only after it,
    inside [setActiveAppSec].  The call returns with instance 1 active and
    started, its handle open and [Enabled] true, but with the registry
    root nil, RC blocking disabled and the remote-configuration client
    stopped, all three undone by the late teardown of instance 0. *)
Theorem Start_over_started_instance :
  exists w' i1,
    Start env_ok [] world_A = Ok tt w' /\
    trace w' =
      [EvNewAppSec 1; EvStartRC 1; EvNewTokenTicker 1; EvSetLimiter 1 (Some 1);
       EvLimiterStart 1; EvNewWAFHandle 1; EvSwapRootOperation (Some 1);
       EvSetWafHandle 1 (Some 1); EvEnableRCBlocking 1; EvSetStarted 1 true;
       EvLock; EvStopRC 0; EvSetStarted 0 false; EvDisableRCBlocking 0;
       EvSwapRootOperation None; EvHandleClose 0; EvSetWafHandle 0 None;
       EvLimiterStop 0; EvSetActive (Some 1); EvUnlock] /\
    activeAppSec w' = Some 1 /\
    instances w' !! 1 = Some i1 /\
    started i1 = true /\ wafHandle i1 = Some 1 /\
    handle_closed w' 1 = false /\
    value (Enabled w') = Some true /\
    rootOperation w' = None /\
    blocking (rc w') = false /\
    clientRunning (rc w') = false.
Proof. vm_compute. do 2 eexists. repeat split. Qed.

(** ** C2: the query surface *)

(** C2.  [Enabled] returns true exactly when the active instance is
    non-nil and its [started] flag is set; it changes nothing but the
    trace of the lock it takes and releases. *)
Theorem Enabled_iff_active_started (w : World) :
  (forall a, activeAppSec w = Some a -> is_Some (instances w !! a)) ->
  exists b,
    Enabled w = Ok b (set_trace (fun t => t ++ [EvRLock; EvRUnlock]) w) /\
    (b = true <->
     exists a i,
       activeAppSec w = Some a /\ instances w !! a = Some i /\ started i = true).
Proof.
  intros Hv. unfold Enabled. mrun.
  destruct (activeAppSec w) as [a|] eqn:Ea.
  - destruct (Hv a eq_refl) as [i Hi]. mrun. exists (started i).
    rewrite <- app_assoc. split; [reflexivity|]. split.
    + intros Hs. exists a, i. auto.
    + intros (a' & i' & Ha & Hi' & Hs). congruence.
  - mrun. exists false. rewrite <- app_assoc. split; [reflexivity|].
    split; [discriminate|]. intros (a' & i' & Ha & _). discriminate.
Qed.

Lemma Enabled_iff_active_started_witness :
  exists b,
    Enabled world_A = Ok b (set_trace (fun t => t ++ [EvRLock; EvRUnlock]) world_A) /\
    (b = true <->
     exists a i,
       activeAppSec world_A = Some a /\ instances world_A !! a = Some i /\
       started i = true).
Proof.
  apply (Enabled_iff_active_started world_A).
  intros a Ha. injection Ha as <-. simpl. eauto.
Defined.

(** ** C3: the outcome of loading the engine *)

(** C3.  When the load fails fatally (an error, and not ok), [start]
    returns the wrapped error and leaves the whole state as it was.  When
    the load reports an error but ok, [start] logs it and goes on exactly
    as after a clean load; in particular, on an instance whose ruleset
    constructs, it returns nil with the instance started, its new limiter
    running and its new handle installed as the registry root. *)
Theorem start_load_outcomes env a w e :
  (waf_Load env = (false, Some e) ->
   start env a w = Ok (Some (wrapError "error while loading libddwaf: %w" e)) w) /\
  (waf_Load env = (true, Some e) ->
   start env a w =
     start (with_Load (true, None) env) a
       (set_logs (fun l => l ++ [(Error, "appsec: non-critical error while loading libddwaf: %v", Some e)]) w) /\
   forall i,
     instances w !! a = Some i ->
     (forall h, wafHandle i = Some h -> is_Some (handles w !! h)) ->
     newWAFHandle_err env (RulesManager_Latest (cfg i)) = None ->
     exists w' i',
       start env a w = Ok None w' /\
       instances w' !! a = Some i' /\
       started i' = true /\
       limiter i' = Some (length (tickers w)) /\
       wafHandle i' = Some (length (handles w)) /\
       ticker_running w' (length (tickers w)) = true /\
       rootOperation w' = Some (length (handles w))).
Proof.
  split.
  - apply start_fatal.
  - intros Hl. split.
    + unfold start. rewrite Hl. reflexivity.
    + intros i Hi Hh Hn.
      assert (Hf : load_fatal env = false) by (unfold load_fatal; now rewrite Hl).
      pose proof (lookup_lt_Some _ _ _ Hi) as Hlen.
      eexists _, _. split; [apply (start_success env a i w Hi Hh Hf Hn)|].
      unfold started_world, ticker_running. simpl.
      rewrite list_lookup_insert_eq by lia.
      rewrite list_lookup_middle by reflexivity.
      repeat split.
Qed.

Lemma start_load_outcomes_witness :
  start env_unsupported 0 world_idle =
    Ok (Some (wrapError "error while loading libddwaf: %w"
                (errorString "unsupported target"))) world_idle /\
  exists w' i',
    start env_degraded 0 world_idle = Ok None w' /\
    instances w' !! 0 = Some i' /\ started i' = true.
Proof.
  split.
  - apply (proj1 (start_load_outcomes env_unsupported 0 world_idle
                    (errorString "unsupported target"))).
    reflexivity.
  - destruct (proj2 (start_load_outcomes env_degraded 0 world_idle
                       (errorString "degraded")) eq_refl) as [_ H].
    destruct (H (fresh_instance cfg0) eq_refl) as (w' & i' & H1 & H2 & H3 & _).
    + intros h Hh. discriminate.
    + reflexivity.
    + exists w', i'. auto.
Defined.

(** ** C4: the engine handle across start and stop *)

Lemma call_preserves a c w :
  inst_inv w a ->
  exists w',
    call a c w = Ok tt w' /\ inst_inv w' a /\
    (c = CallStop ->
     exists i', instances w' !! a = Some i' /\ wafHandle i' = None).
Proof.
  intros (i & Hi & Hok). pose proof (lookup_lt_Some _ _ _ Hi) as Hlen.
  destruct c as [env|]; simpl.
  - unfold bind. destruct (load_fatal env) eqn:Hf.
    + destruct (load_fatal_inv env Hf) as [e He].
      rewrite (start_fatal env a w e He). exists w.
      split; [reflexivity|]. split; [exists i; auto|discriminate].
    + destruct (newWAFHandle_err env (RulesManager_Latest (cfg i))) as [e|] eqn:Hn.
      * rewrite (start_failure env a i w e Hi Hf Hn). eexists.
        split; [reflexivity|]. split; [|discriminate].
        eexists. split; [simpl; now apply list_lookup_insert_eq|].
        revert Hok. unfold inst_ok. simpl. rewrite length_app. simpl.
        destruct (started i); [|tauto].
        destruct (wafHandle i) as [h|]; [|tauto].
        destruct (limiter i) as [t|]; [|discriminate].
        rewrite !andb_true_iff, !Nat.ltb_lt. lia.
      * rewrite (start_success env a i w Hi (fun h => inst_ok_handle w i h Hok) Hf Hn).
        eexists. split; [reflexivity|]. split; [|discriminate].
        eexists. split; [simpl; now apply list_lookup_insert_eq|].
        unfold inst_ok. simpl. rewrite length_close_handle, !length_app. simpl.
        rewrite andb_true_iff, !Nat.ltb_lt. lia.
  - destruct (started i) eqn:Hs.
    + rewrite (stop_started_ok w a i Hi Hs Hok). eexists.
      split; [reflexivity|].
      assert (Hl : instances (stopped_world a i w) !! a = Some (stopped_instance i))
        by (simpl; now apply list_lookup_insert_eq).
      split; [exists (stopped_instance i); split; [exact Hl|reflexivity]|].
      intros _. exists (stopped_instance i). split; [exact Hl|reflexivity].
    + rewrite (stop_not_started w a i Hi Hs). exists w.
      split; [reflexivity|]. split; [exists i; auto|].
      intros _. exists i. split; [exact Hi|]. now apply (inst_ok_not_started w).
Qed.

(** C4.  Along every sequence of [start] and [stop] calls on an instance
    that satisfies the instance invariant (as a new instance does), no call
    panics, a started instance has a non-nil, allocated engine handle, and
    after a [stop] the engine handle is nil. *)
Theorem handle_invariant a cs w :
  inst_inv w a ->
  exists w' i',
    calls a cs w = Ok tt w' /\
    instances w' !! a = Some i' /\
    (started i' = true ->
     exists h, wafHandle i' = Some h /\ is_Some (handles w' !! h)) /\
    (last cs = Some CallStop -> wafHandle i' = None).
Proof.
  revert w. induction cs as [|c cs IH]; intros w Hinv.
  - destruct Hinv as (i & Hi & Hok). exists w, i.
    split; [reflexivity|]. split; [exact Hi|]. split; [|discriminate].
    intros Hs. destruct (inst_ok_started w i Hok Hs) as (h & t & Hh & _ & Hlt & _).
    exists h. split; [exact Hh|]. now apply lookup_lt_is_Some_2.
  - destruct (call_preserves a c w Hinv) as (w1 & Hc & Hinv1 & Hstop).
    destruct (IH w1 Hinv1) as (w' & i' & Hrun & Hi' & Hst & Hlast).
    exists w', i'. split; [simpl; unfold bind; now rewrite Hc|].
    split; [exact Hi'|]. split; [exact Hst|].
    destruct cs as [|c' cs'].
    + simpl. intros [= ->]. simpl in Hrun. injection Hrun as <-.
      destruct (Hstop eq_refl) as (i1 & Hi1 & Hn). congruence.
    + exact Hlast.
Qed.

Lemma handle_invariant_witness :
  exists w' i',
    calls 0 [CallStart env_ok; CallStop; CallStart env_bad_rules; CallStop]
      world_idle = Ok tt w' /\
    instances w' !! 0 = Some i' /\
    wafHandle i' = None.
Proof.
  destruct (handle_invariant 0
              [CallStart env_ok; CallStop; CallStart env_bad_rules; CallStop]
              world_idle)
    as (w' & i' & H1 & H2 & _ & H4).
  - exists (fresh_instance cfg0). split; reflexivity.
  - exists w', i'. split; [exact H1|]. split; [exact H2|]. apply H4. reflexivity.
Defined.

(** ** C5: a ruleset that fails to construct *)

(** C5.  When the engine handle cannot be constructed from the ruleset,
    [swapWAF] returns the error and leaves the whole state as it was: the
    installed handle, the handles themselves, the registry root and the
    answer of [Enabled] are unchanged.  [start], which calls it on the
    latest ruleset, returns the same error with the instance's handle and
    [started] flag, the handles and the registry root untouched. *)
Theorem swapWAF_failure_keeps_old env a rules w e :
  newWAFHandle_err env rules = Some e ->
  (exists w',
     swapWAF env a rules w = Ok (Some e) w' /\
     w' = w /\
     instances w' !! a = instances w !! a /\
     handles w' = handles w /\
     rootOperation w' = rootOperation w /\
     value (Enabled w') = value (Enabled w)) /\
  (forall i,
     instances w !! a = Some i -> load_fatal env = false ->
     rules = RulesManager_Latest (cfg i) ->
     exists w' i',
       start env a w = Ok (Some e) w' /\
       instances w' !! a = Some i' /\
       wafHandle i' = wafHandle i /\ started i' = started i /\
       handles w' = handles w /\
       rootOperation w' = rootOperation w).
Proof.
  intros H. split.
  - exists w. rewrite (swapWAF_failure _ _ _ _ _ H). repeat split; reflexivity.
  - intros i Hi Hf ->. pose proof (lookup_lt_Some _ _ _ Hi) as Hlen.
    eexists _, _. split; [apply (start_failure env a i w e Hi Hf H)|].
    simpl. split; [now apply list_lookup_insert_eq|]. repeat split.
Qed.

Lemma swapWAF_failure_keeps_old_witness :
  swapWAF env_bad_rules 0 1 world_A = Ok (Some (errorString "invalid ruleset")) world_A.
Proof.
  destruct (proj1 (swapWAF_failure_keeps_old env_bad_rules 0 1 world_A
                     (errorString "invalid ruleset") eq_refl))
    as (w' & H1 & -> & _).
  exact H1.
Defined.

(** ** C6: the order of the steps of [stop] *)

(** C6.  On a started instance, [stop] performs, in this order: the write
    of [started = false], [disableRCBlocking], the swap of the registry
    root to nil, the close of the engine handle and the write of nil to it
    (when there is a handle), and the stop of the limiter; nothing else. *)
Theorem stop_order w a i t :
  instances w !! a = Some i ->
  started i = true ->
  limiter i = Some t ->
  is_Some (tickers w !! t) ->
  (forall h, wafHandle i = Some h -> is_Some (handles w !! h)) ->
  exists w',
    stop a w = Ok tt w' /\
    trace w' = trace w
      ++ [EvSetStarted a false; EvDisableRCBlocking a; EvSwapRootOperation None]
      ++ match wafHandle i with
         | Some h => [EvHandleClose h; EvSetWafHandle a None]
         | None => []
         end
      ++ [EvLimiterStop t] /\
    rootOperation w' = None /\
    blocking (rc w') = false /\
    ticker_running w' t = false.
Proof.
  intros Hi Hs Hl Ht Hh.
  eexists. split; [apply (stop_started w a i t Hi Hs Hl Ht Hh)|].
  unfold stopped_world, stop_events, ticker_running, stop_ticker. simpl.
  rewrite Hl. destruct Ht as [tk Htk]. rewrite Htk.
  rewrite list_lookup_insert_eq by (eapply lookup_lt_Some; eauto).
  repeat split.
Qed.

Lemma stop_order_witness :
  exists w',
    stop 0 world_A = Ok tt w' /\
    trace w' = [EvSetStarted 0 false; EvDisableRCBlocking 0;
                EvSwapRootOperation None; EvHandleClose 0;
                EvSetWafHandle 0 None; EvLimiterStop 0].
Proof.
  destruct (stop_order world_A 0
              {| cfg := cfg0; limiter := Some 0; wafHandle := Some 0; started := true |}
              0 eq_refl eq_refl eq_refl)
    as (w' & H1 & H2 & _).
  - simpl. eauto.
  - intros h Hh. injection Hh as <-. simpl. eauto.
  - exists w'. split; [exact H1|exact H2].
Defined.

(** ** C7: a failed start is never published *)

(** C7.  When [Start] gets as far as the new instance and then its
    [start] (explicit enablement) or its [enableRemoteActivation] (no
    explicit enablement) returns an error, [Start] returns with the active
    instance unchanged, without having taken the lock or written the active
    instance, its last effect being [stopRC] on the new instance, which
    leaves the remote-configuration client stopped; the instances that
    existed before are untouched. *)
Theorem Start_failure_not_published env opts w enabled (set : bool) c :
  config_IsEnabled env = (enabled, set, None) ->
  set && negb enabled = false ->
  fst (waf_Health env) = true ->
  config_NewConfig env = (c, None) ->
  (if set then start_fails env (apply_opts opts c) = true
   else is_Some (enableRemoteActivation_err env)) ->
  exists w' evs,
    Start env opts w = Ok tt w' /\
    activeAppSec w' = activeAppSec w /\
    trace w' = trace w ++ evs /\
    (EvLock ∉ evs) /\ (forall x, EvSetActive x ∉ evs) /\
    last evs = Some (EvStopRC (length (instances w))) /\
    clientRunning (rc w') = false /\
    (forall a, a < length (instances w) -> instances w' !! a = instances w !! a).
Proof.
  intros He Hd Hh Hc Hfail.
  rewrite (Start_reaches_tail env opts w enabled set c He Hd Hh Hc).
  unfold Start_tail. destruct set; cbn [negb].
  - unfold start_fails in Hfail. destruct (load_fatal env) eqn:Hf.
    + destruct (load_fatal_inv env Hf) as [e Hl].
      unfold bind at 1. rewrite (start_fatal env _ _ e Hl), abandon_ok.
      eexists _, _. split; [reflexivity|]. simpl.
      split; [reflexivity|]. split; [rewrite <- app_assoc; reflexivity|].
      unfold created_events. destruct (startRC_err env); simpl;
        (split; [not_in_list|]; split; [intros x; not_in_list|]);
        (split; [reflexivity|]; split; [reflexivity|]);
        intros a Ha; now rewrite lookup_app_l.
    + simpl in Hfail.
      destruct (newWAFHandle_err env (RulesManager_Latest (apply_opts opts c)))
        as [e|] eqn:Hn; [|discriminate].
      unfold bind at 1.
      rewrite (start_failure env _ _ _ e (created_fresh env _ w) Hf Hn), abandon_ok.
      eexists _, _. split; [reflexivity|]. simpl.
      split; [reflexivity|]. split; [rewrite <- !app_assoc; reflexivity|].
      unfold created_events. destruct (startRC_err env); simpl;
        (split; [not_in_list|]; split; [intros x; not_in_list|]);
        (split; [reflexivity|]; split; [reflexivity|]);
        intros a Ha; (rewrite list_lookup_insert_ne by lia); now rewrite lookup_app_l.
  - destruct Hfail as [e Hn]. unfold enableRemoteActivation. rewrite Hn.
    unfold bind at 1 2. unfold log at 1, ret at 1. rewrite abandon_ok.
    eexists _, _. split; [reflexivity|]. simpl.
    split; [reflexivity|]. split; [rewrite <- !app_assoc; reflexivity|].
    unfold created_events. destruct (startRC_err env); simpl;
      (split; [not_in_list|]; split; [intros x; not_in_list|]);
      (split; [reflexivity|]; split; [reflexivity|]);
      intros a Ha; now rewrite lookup_app_l.
Qed.

Lemma Start_failure_not_published_witness :
  (exists w',
     Start env_bad_rules [] world_A = Ok tt w' /\
     activeAppSec w' = Some 0 /\ clientRunning (rc w') = false) /\
  (exists w',
     Start env_no_remote [] world_A = Ok tt w' /\
     activeAppSec w' = Some 0 /\ clientRunning (rc w') = false).
Proof.
  split.
  - destruct (Start_failure_not_published env_bad_rules [] world_A true true cfg0
                eq_refl eq_refl eq_refl eq_refl eq_refl)
      as (w' & evs & H1 & H2 & _ & _ & _ & _ & H7 & _).
    exists w'. auto.
  - destruct (Start_failure_not_published env_no_remote [] world_A false false cfg0
                eq_refl eq_refl eq_refl eq_refl)
      as (w' & evs & H1 & H2 & _ & _ & _ & _ & H7 & _).
    + simpl. eauto.
    + exists w'. auto.
Defined.

(** ** C8: the limiter after a failed start *)

(** C8 fails on the code.  A [start] whose ruleset does not construct
    returns after it has created and started the limiter; the [stop] that
    follows finds [started] false and returns at once; the instance is not
    started and its limiter is still running.  The same holds for the
    package-level [Start] followed by [Stop]. *)
Theorem limiter_leaks_after_failed_start :
  (exists e w1 w2 i,
     start env_bad_rules 0 world_idle = Ok (Some e) w1 /\
     stop 0 w1 = Ok tt w2 /\
     instances w2 !! 0 = Some i /\
     started i = false /\ limiter i = Some 0 /\
     ticker_running w2 0 = true) /\
  (exists w1 w2,
     Start env_bad_rules [] world0 = Ok tt w1 /\
     Stop w1 = Ok tt w2 /\
     value (Enabled w2) = Some false /\
     ticker_running w2 0 = true).
Proof.
  split.
  - vm_compute. do 4 eexists. repeat split.
  - vm_compute. do 2 eexists. repeat split.
Qed.

(** ** C9: stopping what is not started *)

(** C9.  [stop] on an instance that is not started returns the state as it
    was.  [Stop] with no active instance takes and releases the lock,
    writes nil to the active instance, which was nil, and leaves every
    other part of the state as it was. *)
Theorem stop_is_noop_when_not_started (w : World) :
  (forall a i, instances w !! a = Some i -> started i = false -> stop a w = Ok tt w) /\
  (activeAppSec w = None ->
   exists w',
     Stop w = Ok tt w' /\
     w' = set_trace (fun t => t ++ [EvLock; EvSetActive None; EvUnlock]) w /\
     activeAppSec w' = None).
Proof.
  split.
  - intros a i. apply stop_not_started.
  - intros Hn. eexists. split; [|split; [reflexivity|exact Hn]].
    unfold Stop, setActiveAppSec. mrun. rewrite <- !app_assoc. reflexivity.
Qed.

Lemma stop_is_noop_when_not_started_witness :
  stop 0 world_idle = Ok tt world_idle /\
  exists w',
    Stop world_idle = Ok tt w' /\
    w' = set_trace (fun t => t ++ [EvLock; EvSetActive None; EvUnlock]) world_idle /\
    activeAppSec w' = None.
Proof.
  split.
  - apply (proj1 (stop_is_noop_when_not_started world_idle) 0 (fresh_instance cfg0));
      reflexivity.
  - apply (proj2 (stop_is_noop_when_not_started world_idle)). reflexivity.
Defined.

(** ** C10: an unusable engine *)

(** C10.  When the health probe reports the engine unusable, whatever the
    enablement, [Start] returns without a panic having done nothing but
    write one log entry: no instance is constructed, none is published, no
    effect is performed, and [Enabled] answers as before. *)
Theorem Start_health_unusable env opts w :
  fst (waf_Health env) = false ->
  exists w' entry,
    Start env opts w = Ok tt w' /\
    w' = set_logs (fun l => l ++ [entry]) w /\
    instances w' = instances w /\
    activeAppSec w' = activeAppSec w /\
    trace w' = trace w /\
    value (Enabled w') = value (Enabled w).
Proof.
  intros Hh. unfold Start.
  destruct (config_IsEnabled env) as [[enabled set] [e|]].
  - eexists _, _. split; [reflexivity|]. split; [reflexivity|].
    rewrite !Enabled_value. repeat split.
  - destruct (waf_Health env) as [ok herr]. simpl in Hh. subst ok.
    destruct set, enabled; simpl;
      (eexists _, _; split; [reflexivity|]; split; [reflexivity|];
       rewrite !Enabled_value; repeat split).
Qed.

Lemma Start_health_unusable_witness :
  exists w',
    Start env_unhealthy [] world0 = Ok tt w' /\
    instances w' = [] /\ activeAppSec w' = None /\
    value (Enabled w') = Some false.
Proof.
  destruct (Start_health_unusable env_unhealthy [] world0 eq_refl)
    as (w' & entry & H1 & _ & H3 & H4 & _ & H6).
  exists w'. split; [exact H1|]. split; [exact H3|]. split; [exact H4|].
  rewrite H6. reflexivity.
Defined.

(** ** Further properties of the package *)

Lemma torn_down_instances_ne a i w a' :
  a' <> a -> instances (torn_down a i w) !! a' = instances w !! a'.
Proof.
  intros Hne. unfold torn_down. destruct (started i); [|reflexivity].
  simpl. now rewrite list_lookup_insert_ne.
Qed.

Lemma torn_down_tickers_ne a i w t' :
  (started i = true -> limiter i <> Some t') ->
  tickers (torn_down a i w) !! t' = tickers w !! t'.
Proof.
  intros Hne. unfold torn_down. destruct (started i); [|reflexivity].
  simpl. unfold stop_ticker. destruct (limiter i) as [t|]; [|reflexivity].
  destruct (tickers w !! t); [|reflexivity].
  rewrite list_lookup_insert_ne; [reflexivity|]. intros ->. now apply Hne.
Qed.

Lemma torn_down_handles_ne a i w h' :
  (started i = true -> wafHandle i <> Some h') ->
  handles (torn_down a i w) !! h' = handles w !! h'.
Proof.
  intros Hne. unfold torn_down. destruct (started i); [|reflexivity].
  simpl. unfold close_handle. destruct (wafHandle i) as [h|]; [|reflexivity].
  destruct (handles w !! h); [|reflexivity].
  rewrite list_lookup_insert_ne; [reflexivity|]. intros ->. now apply Hne.
Qed.

Lemma torn_down_lengths a i w :
  length (instances (torn_down a i w)) = length (instances w) /\
  length (tickers (torn_down a i w)) = length (tickers w) /\
  length (handles (torn_down a i w)) = length (handles w).
Proof.
  unfold torn_down. destruct (started i); [|auto]. simpl.
  now rewrite length_insert, length_stop_ticker, length_close_handle.
Qed.

(** What [setActiveAppSec] leaves of a world whose active instance
    satisfies the invariant. *)
Lemma setActiveAppSec_frame x w :
  world_ok w ->
  exists w',
    setActiveAppSec x w = Ok tt w' /\
    activeAppSec w' = x /\
    (forall a', active_started w = false \/ activeAppSec w <> Some a' ->
                instances w' !! a' = instances w !! a') /\
    (forall t',
       active_started w = false \/
       (forall a i, activeAppSec w = Some a -> instances w !! a = Some i ->
                    limiter i <> Some t') ->
       tickers w' !! t' = tickers w !! t') /\
    (forall h',
       active_started w = false \/
       (forall a i, activeAppSec w = Some a -> instances w !! a = Some i ->
                    wafHandle i <> Some h') ->
       handles w' !! h' = handles w !! h') /\
    rootOperation w' = (if active_started w then None else rootOperation w) /\
    length (instances w') = length (instances w) /\
    length (tickers w') = length (tickers w) /\
    length (handles w') = length (handles w) /\
    logs w' = logs w.
Proof.
  intros Hok. unfold active_started. destruct (activeAppSec w) as [a|] eqn:Ha.
  - destruct (Hok a Ha) as (i & Hi & Hinv). rewrite Hi.
    rewrite (setActiveAppSec_active x w a i Ha Hi Hinv). eexists.
    split; [reflexivity|]. split; [reflexivity|].
    destruct (torn_down_lengths a i (locked a w)) as (L1 & L2 & L3).
    split; [|split; [|split; [|split; [|split; [|split; [|split]]]]]]; try assumption.
    + intros a' Hne. cbn [published instances]. destruct Hne as [Hne|Hne].
      * unfold torn_down. now rewrite Hne.
      * rewrite torn_down_instances_ne by congruence. reflexivity.
    + intros t' Ht. cbn [published tickers]. rewrite torn_down_tickers_ne; [reflexivity|].
      intros Hs. destruct Ht as [Ht|Ht]; [congruence|]. exact (Ht a i eq_refl Hi).
    + intros h' Hh. cbn [published handles]. rewrite torn_down_handles_ne; [reflexivity|].
      intros Hs. destruct Hh as [Hh|Hh]; [congruence|]. exact (Hh a i eq_refl Hi).
    + cbn [published rootOperation]. unfold torn_down. destruct (started i); reflexivity.
    + cbn [published logs]. unfold torn_down. destruct (started i); reflexivity.
  - rewrite (setActiveAppSec_nil x w Ha). eexists.
    split; [reflexivity|]. repeat split.
Qed.

Lemma world_ok_set_logs f w : world_ok w -> world_ok (set_logs f w).
Proof. intros H a Ha. exact (H a Ha). Qed.

(** The new instance in the world [Start] prepares under explicit
    enablement. *)
Lemma prepared_new_instance env c w :
  let P := prepared env true c w in
  instances P !! length (instances w) =
    Some {| cfg := c; limiter := Some (length (tickers w));
            wafHandle := Some (length (handles w)); started := true |} /\
  tickers P !! length (tickers w) =
    Some {| tokens := TraceRateLimit c; maxTokens := TraceRateLimit c;
            running := true |} /\
  handles P !! length (handles w) =
    Some {| handleRules := RulesManager_Latest c; closed := false |} /\
  activeAppSec P = activeAppSec w /\
  length (tickers P) = S (length (tickers w)) /\
  length (handles P) = S (length (handles w)) /\
  (forall a, a < length (instances w) -> instances P !! a = instances w !! a) /\
  (forall t, t < length (tickers w) -> tickers P !! t = tickers w !! t) /\
  (forall h, h < length (handles w) -> handles P !! h = handles w !! h).
Proof.
  unfold prepared. simpl.
  rewrite list_lookup_insert_eq by (rewrite length_app; simpl; lia).
  rewrite !list_lookup_middle by reflexivity.
  rewrite !length_app. simpl.
  repeat split; try lia.
  - intros a Ha. rewrite list_lookup_insert_ne by lia. now rewrite lookup_app_l.
  - intros t Ht. now rewrite lookup_app_l.
  - intros h Hh. now rewrite lookup_app_l.
Qed.

Lemma world_ok_prepared env set c w : world_ok w -> world_ok (prepared env set c w).
Proof.
  intros Hok a Ha.
  assert (Ha' : activeAppSec w = Some a) by (destruct set; exact Ha).
  destruct (Hok a Ha') as (i & Hi & Hinv).
  destruct (prepared_facts env set c w a i Ha' Hi Hinv) as (_ & Pi & Pok & _).
  exists i. auto.
Qed.

Lemma world_ok_extend w w' :
  world_ok w ->
  activeAppSec w' = activeAppSec w ->
  (forall a, a < length (instances w) -> instances w' !! a = instances w !! a) ->
  length (handles w) <= length (handles w') ->
  length (tickers w) <= length (tickers w') ->
  world_ok w'.
Proof.
  intros Hok Hact Hinst Hh Ht a Ha. rewrite Hact in Ha.
  destruct (Hok a Ha) as (i & Hi & Hinv).
  exists i. split.
  - rewrite Hinst; [exact Hi|]. eapply lookup_lt_Some; eauto.
  - eapply inst_ok_mono; eauto.
Qed.

Lemma active_lt w a : world_ok w -> activeAppSec w = Some a -> a < length (instances w).
Proof.
  intros Hok Ha. destruct (Hok a Ha) as (i & Hi & _). eapply lookup_lt_Some; eauto.
Qed.

(** What [Start] leaves when it does not publish the new instance. *)
Lemma Start_tail_failure env (set : bool) c w :
  (if set then start_fails env c = true
   else is_Some (enableRemoteActivation_err env)) ->
  exists w',
    Start_tail env set (length (instances w)) (created env c w) = Ok tt w' /\
    activeAppSec w' = activeAppSec w /\
    (forall a, a < length (instances w) -> instances w' !! a = instances w !! a) /\
    length (instances w') = S (length (instances w)) /\
    length (handles w') = length (handles w) /\
    length (tickers w) <= length (tickers w').
Proof.
  intros Hfail. unfold Start_tail. destruct set; cbn [negb].
  - unfold start_fails in Hfail. destruct (load_fatal env) eqn:Hf.
    + destruct (load_fatal_inv env Hf) as [e Hl].
      unfold bind at 1. rewrite (start_fatal env _ _ e Hl), abandon_ok.
      eexists. split; [reflexivity|]. simpl. rewrite length_app. simpl.
      repeat split; try lia. intros a Ha. now rewrite lookup_app_l.
    + simpl in Hfail.
      destruct (newWAFHandle_err env (RulesManager_Latest c)) as [e|] eqn:Hn;
        [|discriminate].
      unfold bind at 1.
      rewrite (start_failure env _ _ _ e (created_fresh env _ w) Hf Hn), abandon_ok.
      eexists. split; [reflexivity|]. simpl.
      rewrite length_insert, !length_app. simpl.
      repeat split; try lia.
      intros a Ha. rewrite list_lookup_insert_ne by lia. now rewrite lookup_app_l.
  - destruct Hfail as [e Hn]. unfold enableRemoteActivation. rewrite Hn.
    unfold bind at 1 2. unfold log at 1, ret at 1. rewrite abandon_ok.
    eexists. split; [reflexivity|]. simpl. rewrite length_app. simpl.
    repeat split; try lia. intros a Ha. now rewrite lookup_app_l.
Qed.

Lemma world_ok_awaiting b w : world_ok w -> world_ok (awaiting b w).
Proof. intros H a Ha. exact (H a Ha). Qed.

Lemma active_started_prepared env set c w :
  world_ok w -> active_started (prepared env set c w) = active_started w.
Proof.
  intros Hok. unfold active_started.
  assert (Hp : activeAppSec (prepared env set c w) = activeAppSec w)
    by (destruct set; reflexivity).
  rewrite Hp. destruct (activeAppSec w) as [a|] eqn:Ha; [|reflexivity].
  destruct (Hok a Ha) as (i & Hi & Hinv).
  destruct (prepared_facts env set c w a i Ha Hi Hinv) as (_ & Pi & _).
  now rewrite Pi, Hi.
Qed.

(** What [Start] leaves when it publishes the new instance. *)
Lemma Start_tail_success env (set : bool) c w :
  (if set then start_fails env c = false
   else enableRemoteActivation_err env = None) ->
  world_ok w ->
  exists w',
    Start_tail env set (length (instances w)) (created env c w) = Ok tt w' /\
    activeAppSec w' = Some (length (instances w)) /\
    instances w' !! length (instances w) =
      Some (if set
            then {| cfg := c; limiter := Some (length (tickers w));
                    wafHandle := Some (length (handles w)); started := true |}
            else fresh_instance c) /\
    length (instances w') = S (length (instances w)) /\
    length (handles w') = (if set then S (length (handles w)) else length (handles w)) /\
    length (tickers w') = (if set then S (length (tickers w)) else length (tickers w)) /\
    rootOperation w' =
      (if active_started w then None
       else if set then Some (length (handles w)) else rootOperation w) /\
    (set = true ->
     tickers w' !! length (tickers w) =
       Some {| tokens := TraceRateLimit c; maxTokens := TraceRateLimit c;
               running := true |} /\
     handles w' !! length (handles w) =
       Some {| handleRules := RulesManager_Latest c; closed := false |}) /\
    (active_started w = false ->
     (forall a, a < length (instances w) -> instances w' !! a = instances w !! a) /\
     (forall t, t < length (tickers w) -> tickers w' !! t = tickers w !! t) /\
     (forall h, h < length (handles w) -> handles w' !! h = handles w !! h)) /\
    logs w' = logs (prepared env set c w).
Proof.
  intros Hgo Hok. rewrite (Start_tail_prepared env set c w Hgo).
  destruct (setActiveAppSec_frame (Some (length (instances w)))
              (prepared env set c w) (world_ok_prepared env set c w Hok))
    as (w' & Hrun & Hact & Hinst & Htick & Hhand & Hroot & L1 & L2 & L3 & Hlogs).
  assert (Hp : activeAppSec (prepared env set c w) = activeAppSec w)
    by (destruct set; reflexivity).
  assert (Hb : activeAppSec (prepared env set c w) <> Some (length (instances w))).
  { rewrite Hp. intros Ha. pose proof (active_lt w _ Hok Ha). lia. }
  pose proof (active_started_prepared env set c w Hok) as Hst.
  assert (Hcond : active_started (prepared env set c w) = false \/
                  forall a i, activeAppSec (prepared env set c w) = Some a ->
                    instances (prepared env set c w) !! a = Some i ->
                    limiter i <> Some (length (tickers w)) /\
                    wafHandle i <> Some (length (handles w))).
  { rewrite Hst. destruct (active_started w) eqn:Has; [right|left; reflexivity].
    intros a i Ha Hi. rewrite Hp in Ha. destruct (Hok a Ha) as (i0 & Hi0 & Hinv).
    destruct (prepared_facts env set c w a i0 Ha Hi0 Hinv) as (_ & Pi & _).
    assert (i = i0) by congruence. subst i0.
    unfold active_started in Has. rewrite Ha, Hi0 in Has.
    destruct (inst_ok_started w i Hinv Has) as (h & t & Hh & Hl & Hhlt & Htlt).
    rewrite Hh, Hl. split; intros [= ->]; lia. }
  assert (Hct : active_started (prepared env set c w) = false \/
                forall a i, activeAppSec (prepared env set c w) = Some a ->
                  instances (prepared env set c w) !! a = Some i ->
                  limiter i <> Some (length (tickers w)))
    by (destruct Hcond as [H|H]; [left; exact H|right; intros a i Ha Hi; apply (H a i Ha Hi)]).
  assert (Hch : active_started (prepared env set c w) = false \/
                forall a i, activeAppSec (prepared env set c w) = Some a ->
                  instances (prepared env set c w) !! a = Some i ->
                  wafHandle i <> Some (length (handles w)))
    by (destruct Hcond as [H|H]; [left; exact H|right; intros a i Ha Hi; apply (H a i Ha Hi)]).
  exists w'. split; [exact Hrun|]. split; [exact Hact|].
  rewrite (Hinst _ (or_intror Hb)), L1, L2, L3, Hroot, Hst.
  assert (Hframe : active_started w = false ->
            (forall a, instances w' !! a = instances (prepared env set c w) !! a) /\
            (forall t, tickers w' !! t = tickers (prepared env set c w) !! t) /\
            (forall h, handles w' !! h = handles (prepared env set c w) !! h)).
  { intros Has. rewrite <- Hst in Has. repeat split; intros; auto. }
  destruct set.
  - destruct (prepared_new_instance env c w)
      as (P1 & P2 & P3 & _ & P5 & P6 & P7 & P8 & P9).
    rewrite P1, P5, P6, (Htick _ Hct), (Hhand _ Hch).
    unfold prepared in *. simpl. rewrite length_insert, length_app. simpl.
    split; [reflexivity|]. split; [lia|]. split; [reflexivity|].
    split; [reflexivity|]. split; [reflexivity|]. split; [auto|].
    split; [|exact Hlogs].
    intros Has. destruct (Hframe Has) as (F1 & F2 & F3).
    repeat split; intros; rewrite ?F1, ?F2, ?F3; auto.
  - unfold prepared in *. simpl. rewrite list_lookup_middle by reflexivity.
    rewrite length_app. simpl.
    split; [reflexivity|]. split; [lia|]. split; [reflexivity|].
    split; [reflexivity|]. split; [reflexivity|]. split; [discriminate|].
    split; [|exact Hlogs].
    intros Has. destruct (Hframe Has) as (F1 & F2 & F3).
    repeat split; intros; rewrite ?F1, ?F2, ?F3; simpl; auto.
    now rewrite lookup_app_l.
Qed.

Lemma constructs_inv env :
  constructs env = true ->
  exists enabled set c,
    config_IsEnabled env = (enabled, set, None) /\
    set && negb enabled = false /\
    fst (waf_Health env) = true /\
    config_NewConfig env = (c, None).
Proof.
  unfold constructs.
  destruct (config_IsEnabled env) as [[enabled set] [e|]]; [discriminate|].
  destruct (config_NewConfig env) as [c [e|]];
    [rewrite andb_false_r; discriminate|].
  rewrite andb_true_r, andb_true_iff, negb_true_iff. intros [H1 H2].
  exists enabled, set, c. auto.
Qed.

Lemma Start_gate_closed env opts w :
  constructs env = false ->
  exists entry, Start env opts w = Ok tt (set_logs (fun l => l ++ [entry]) w).
Proof.
  unfold constructs, Start.
  destruct (config_IsEnabled env) as [[enabled set] [e|]]; [eexists; reflexivity|].
  destruct (set && negb enabled); [eexists; reflexivity|].
  destruct (waf_Health env) as [[|] herr]; simpl.
  - destruct (config_NewConfig env) as [c [e|]]; [eexists; reflexivity|discriminate].
  - destruct set; eexists; reflexivity.
Qed.

Lemma Start_preserves_ok env opts w :
  world_ok w ->
  exists w',
    Start env opts w = Ok tt w' /\
    world_ok w' /\
    length (instances w') =
      length (instances w) + (if constructs env then 1 else 0) /\
    activeAppSec w' =
      (if publishes env opts then Some (length (instances w)) else activeAppSec w).
Proof.
  intros Hok. unfold publishes. destruct (constructs env) eqn:Hc.
  - destruct (constructs_inv env Hc) as (enabled & set & c & He & Hd & Hh & Hn).
    rewrite (Start_reaches_tail env opts w enabled set c He Hd Hh Hn).
    rewrite He, Hn. cbn [fst snd andb].
    set (c' := apply_opts opts c).
    assert (Hcase :
      (if set then start_fails env c' = false
       else enableRemoteActivation_err env = None) \/
      (if set then start_fails env c' = true
       else is_Some (enableRemoteActivation_err env))).
    { destruct set.
      - destruct (start_fails env c'); auto.
      - destruct (enableRemoteActivation_err env); [right; eauto|left; reflexivity]. }
    destruct Hcase as [Hgo|Hfail].
    + destruct (Start_tail_success env set c' w Hgo Hok)
        as (w' & Hrun & Hact & Hinst & L1 & L2 & L3 & _).
      exists w'. split; [exact Hrun|]. split; [|split; [lia|]].
      * intros a Ha. rewrite Hact in Ha. injection Ha as <-.
        eexists. split; [exact Hinst|].
        unfold inst_ok. destruct set; simpl; [|reflexivity].
        rewrite L2, L3, andb_true_iff, !Nat.ltb_lt. lia.
      * rewrite Hact. destruct set.
        -- now rewrite Hgo.
        -- now rewrite Hgo.
    + destruct (Start_tail_failure env set c' w Hfail)
        as (w' & Hrun & Hact & Hinst & L1 & L2 & L3).
      exists w'. split; [exact Hrun|]. split; [|split; [lia|]].
      * apply (world_ok_extend w w' Hok Hact Hinst); lia.
      * rewrite Hact. destruct set.
        -- now rewrite Hfail.
        -- destruct Hfail as [e ->]. reflexivity.
  - destruct (Start_gate_closed env opts w Hc) as [entry Hrun].
    exists (set_logs (fun l => l ++ [entry]) w).
    split; [exact Hrun|]. split; [now apply world_ok_set_logs|].
    simpl. split; [lia|reflexivity].
Qed.

Lemma Stop_preserves_ok w :
  world_ok w ->
  exists w',
    Stop w = Ok tt w' /\ world_ok w' /\ activeAppSec w' = None /\
    value (Enabled w') = Some false.
Proof.
  intros Hok. destruct (setActiveAppSec_frame None w Hok) as (w' & Hrun & Hact & _).
  exists w'. split; [exact Hrun|]. split; [|split; [exact Hact|]].
  - intros a Ha. congruence.
  - now rewrite Enabled_value, Hact.
Qed.

(** On a well-formed process, with options none of which is nil and a
    resulting rate limit that is not zero, [Start] returns.  It constructs
    exactly one instance when the enablement and the configuration are read
    without error, the enablement is not an explicit false and the engine
    is healthy, and none otherwise; it publishes that instance exactly
    when, in addition, its [start] (explicit enablement) or its
    subscription to remote activation (no explicit enablement) succeeds,
    and leaves the active instance as it was otherwise. *)
Theorem Start_constructs_and_publishes env gopts w :
  world_ok w ->
  start_safe env gopts = true ->
  exists w',
    Start env (option_funcs gopts) w = Ok tt w' /\
    length (instances w') =
      length (instances w) + (if constructs env then 1 else 0) /\
    activeAppSec w' =
      (if publishes env (option_funcs gopts) then Some (length (instances w))
       else activeAppSec w).
Proof.
  intros Hok _.
  destruct (Start_preserves_ok env (option_funcs gopts) w Hok)
    as (w' & H1 & _ & H3 & H4).
  exists w'. auto.
Qed.

Lemma world_ok_world_A : world_ok world_A.
Proof.
  intros a Ha. injection Ha as <-. eexists. split; reflexivity.
Qed.

Lemma world_ok_no_active w : activeAppSec w = None -> world_ok w.
Proof. intros Hn a Ha. congruence. Qed.

Lemma Start_constructs_and_publishes_witness :
  (exists w', Start env_ok [] world_A = Ok tt w' /\
              length (instances w') = 2 /\ activeAppSec w' = Some 1) /\
  (exists w', Start env_bad_rules [] world_A = Ok tt w' /\
              length (instances w') = 2 /\ activeAppSec w' = Some 0) /\
  (exists w', Start env_unhealthy [] world_A = Ok tt w' /\
              length (instances w') = 1 /\ activeAppSec w' = Some 0).
Proof.
  split; [|split].
  - apply (Start_constructs_and_publishes env_ok [] world_A world_ok_world_A).
    reflexivity.
  - apply (Start_constructs_and_publishes env_bad_rules [] world_A world_ok_world_A).
    reflexivity.
  - apply (Start_constructs_and_publishes env_unhealthy [] world_A world_ok_world_A).
    reflexivity.
Defined.

(** Along every sequence of package-level [Start] and [Stop] calls in
    which no [Start] is given a nil option or a rate limit of zero, with
    whatever the collaborators answer, every call returns and the active
    instance satisfies the instance invariant; after a sequence that ends
    with [Stop] there is no active instance and [Enabled] is false. *)
Theorem pkg_calls_safe cs w :
  world_ok w ->
  forallb pkg_call_safe cs = true ->
  exists w',
    pkg_calls cs w = Ok tt w' /\
    world_ok w' /\
    (last cs = Some PkgStop ->
     activeAppSec w' = None /\ value (Enabled w') = Some false).
Proof.
  revert w. induction cs as [|c cs IH]; intros w Hok Hsafe.
  - exists w. split; [reflexivity|]. split; [exact Hok|discriminate].
  - simpl in Hsafe. apply andb_true_iff in Hsafe as [_ Hsafe].
    assert (Hstep : exists w1, pkg_call c w = Ok tt w1 /\ world_ok w1 /\
                      (c = PkgStop -> activeAppSec w1 = None /\
                                      value (Enabled w1) = Some false)).
    { destruct c as [env gopts|]; simpl.
      - destruct (Start_preserves_ok env (option_funcs gopts) w Hok)
          as (w1 & H1 & H2 & _).
        exists w1. split; [exact H1|]. split; [exact H2|discriminate].
      - destruct (Stop_preserves_ok w Hok) as (w1 & H1 & H2 & H3 & H4).
        exists w1. auto. }
    destruct Hstep as (w1 & Hc & Hok1 & Hstop).
    destruct (IH w1 Hok1 Hsafe) as (w' & Hrun & Hok' & Hlast).
    exists w'. split; [simpl; unfold bind; now rewrite Hc|]. split; [exact Hok'|].
    destruct cs as [|c' cs'].
    + simpl. intros [= ->]. simpl in Hrun. injection Hrun as <-. now apply Hstop.
    + exact Hlast.
Qed.

Lemma pkg_calls_safe_witness :
  exists w',
    pkg_calls [PkgStart env_ok []; PkgStart env_bad_rules [Some (opt_rate 5)];
               PkgStart env_ok []; PkgStop] world0 = Ok tt w' /\
    activeAppSec w' = None /\ value (Enabled w') = Some false.
Proof.
  destruct (pkg_calls_safe
              [PkgStart env_ok []; PkgStart env_bad_rules [Some (opt_rate 5)];
               PkgStart env_ok []; PkgStop] world0
              (world_ok_no_active world0 eq_refl) eq_refl)
    as (w' & H1 & _ & H3).
  exists w'. split; [exact H1|]. apply H3. reflexivity.
Defined.

(** When [DD_APPSEC_ENABLED] is not set and no collaborator returns an
    error, everything [Start] logs is at debug level, whether the engine is
    healthy or not: a user who did not ask for appsec sees no error. *)
Theorem Start_unset_logs_debug env opts w enabled :
  config_IsEnabled env = (enabled, false, None) ->
  snd (config_NewConfig env) = None ->
  startRC_err env = None ->
  enableRemoteActivation_err env = None ->
  world_ok w ->
  exists w' new,
    Start env opts w = Ok tt w' /\
    logs w' = logs w ++ new /\
    Forall (fun entry => fst (fst entry) = Debug) new.
Proof.
  intros He Hn Hrc Hra Hok.
  destruct (waf_Health env) as [ok herr] eqn:Hh. destruct ok.
  - destruct (config_NewConfig env) as [c e] eqn:Hc. simpl in Hn. subst e.
    rewrite (Start_reaches_tail env opts w enabled false c He eq_refl
               (f_equal fst Hh) Hc).
    destruct (Start_tail_success env false (apply_opts opts c) w Hra Hok)
      as (w' & Hrun & _ & _ & _ & _ & _ & _ & _ & _ & Hlogs).
    eexists w', _. split; [exact Hrun|]. rewrite Hlogs.
    unfold prepared, awaiting, created. simpl. rewrite Hrc, <- app_assoc.
    split; [reflexivity|]. repeat constructor.
  - unfold Start. rewrite He, Hh. simpl.
    eexists _, _. split; [reflexivity|]. split; [reflexivity|]. repeat constructor.
Qed.

Lemma Start_unset_logs_debug_witness :
  exists w' new,
    Start env_remote [] world_A = Ok tt w' /\
    logs w' = logs world_A ++ new /\
    Forall (fun entry => fst (fst entry) = Debug) new.
Proof.
  apply (Start_unset_logs_debug env_remote [] world_A false
           eq_refl eq_refl eq_refl eq_refl world_ok_world_A).
Defined.

(** Under explicit enablement, with a healthy engine, a readable
    configuration, options none of which is nil, a resulting rate limit
    that is not zero and a ruleset that constructs, [Start] returns with a
    new instance active and started, configured with the result of the
    options applied in order; its limiter is running with both its tokens
    and its capacity equal to the configured trace rate limit, its engine
    handle is open and built from the latest ruleset, and [Enabled] is
    true.  A failure of [startRC] does not prevent any of this. *)
Theorem Start_explicit_enables env gopts w enabled c :
  config_IsEnabled env = (enabled, true, None) ->
  enabled = true ->
  fst (waf_Health env) = true ->
  config_NewConfig env = (c, None) ->
  start_safe env gopts = true ->
  start_fails env (apply_opts (option_funcs gopts) c) = false ->
  world_ok w ->
  let c' := apply_opts (option_funcs gopts) c in
  exists w',
    Start env (option_funcs gopts) w = Ok tt w' /\
    TraceRateLimit c' <> 0%Z /\
    activeAppSec w' = Some (length (instances w)) /\
    instances w' !! length (instances w) =
      Some {| cfg := c'; limiter := Some (length (tickers w));
              wafHandle := Some (length (handles w)); started := true |} /\
    tickers w' !! length (tickers w) =
      Some {| tokens := TraceRateLimit c'; maxTokens := TraceRateLimit c';
              running := true |} /\
    handles w' !! length (handles w) =
      Some {| handleRules := RulesManager_Latest c'; closed := false |} /\
    value (Enabled w') = Some true.
Proof.
  intros He -> Hh Hc Hsafe Hgo Hok c'.
  rewrite (Start_reaches_tail env (option_funcs gopts) w true true c He eq_refl Hh Hc).
  destruct (Start_tail_success env true c' w Hgo Hok)
    as (w' & Hrun & Hact & Hinst & _ & _ & _ & _ & Hnew & _).
  destruct (Hnew eq_refl) as [Ht Hhd].
  exists w'. split; [exact Hrun|]. split.
  { unfold start_safe in Hsafe. rewrite Hc in Hsafe.
    apply andb_true_iff in Hsafe as [_ Hz].
    apply negb_true_iff, Z.eqb_neq in Hz. exact Hz. }
  split; [exact Hact|]. split; [exact Hinst|].
  split; [exact Ht|]. split; [exact Hhd|].
  now rewrite Enabled_value, Hact, Hinst.
Qed.

Lemma Start_explicit_enables_witness :
  exists w',
    Start env_ok [opt_rate 5; opt_rate 7] world_A = Ok tt w' /\
    tickers w' !! 1 = Some {| tokens := 7; maxTokens := 7; running := true |} /\
    value (Enabled w') = Some true.
Proof.
  destruct (Start_explicit_enables env_ok [Some (opt_rate 5); Some (opt_rate 7)]
              world_A true cfg0
              eq_refl eq_refl eq_refl eq_refl eq_refl eq_refl world_ok_world_A)
    as (w' & H1 & _ & _ & _ & H4 & _ & H6).
  exists w'. split; [exact H1|]. split; [exact H4|exact H6].
Defined.

(** Without explicit enablement, with a healthy engine, a readable
    configuration and a working subscription to remote activation, [Start]
    publishes a dormant instance: it is active but not started, it has no
    limiter and no engine handle, none is allocated, and [Enabled] is
    false.  A registry root left by no started instance is left alone. *)
Theorem Start_dormant env opts w enabled c :
  config_IsEnabled env = (enabled, false, None) ->
  fst (waf_Health env) = true ->
  config_NewConfig env = (c, None) ->
  enableRemoteActivation_err env = None ->
  world_ok w ->
  exists w',
    Start env opts w = Ok tt w' /\
    activeAppSec w' = Some (length (instances w)) /\
    instances w' !! length (instances w) = Some (fresh_instance (apply_opts opts c)) /\
    length (tickers w') = length (tickers w) /\
    length (handles w') = length (handles w) /\
    (active_started w = false -> rootOperation w' = rootOperation w) /\
    value (Enabled w') = Some false.
Proof.
  intros He Hh Hc Hgo Hok.
  rewrite (Start_reaches_tail env opts w enabled false c He eq_refl Hh Hc).
  destruct (Start_tail_success env false (apply_opts opts c) w Hgo Hok)
    as (w' & Hrun & Hact & Hinst & _ & L2 & L3 & Hroot & _).
  exists w'. split; [exact Hrun|]. split; [exact Hact|]. split; [exact Hinst|].
  split; [exact L3|]. split; [exact L2|]. split.
  - intros Has. now rewrite Hroot, Has.
  - now rewrite Enabled_value, Hact, Hinst.
Qed.

Lemma Start_dormant_witness :
  exists w',
    Start env_remote [] world0 = Ok tt w' /\
    activeAppSec w' = Some 0 /\
    instances w' !! 0 = Some (fresh_instance cfg0) /\
    value (Enabled w') = Some false.
Proof.
  destruct (Start_dormant env_remote [] world0 false cfg0
              eq_refl eq_refl eq_refl eq_refl (world_ok_no_active world0 eq_refl))
    as (w' & H1 & H2 & H3 & _ & _ & _ & H7).
  exists w'. auto.
Defined.

(** When [Start] replaces a started active instance by a new one under
    explicit enablement, it returns with the new instance started and
    [Enabled] true, but with the registry root nil: the old instance's
    [stop], which runs after the new instance's [start], swaps the root to
    nil.  When the active instance is not started, or there is none, the
    root is the new handle. *)
Theorem Start_root_after_replacement env opts w enabled c :
  config_IsEnabled env = (enabled, true, None) ->
  enabled = true ->
  fst (waf_Health env) = true ->
  config_NewConfig env = (c, None) ->
  start_fails env (apply_opts opts c) = false ->
  world_ok w ->
  exists w',
    Start env opts w = Ok tt w' /\
    value (Enabled w') = Some true /\
    rootOperation w' =
      (if active_started w then None else Some (length (handles w))).
Proof.
  intros He -> Hh Hc Hgo Hok.
  rewrite (Start_reaches_tail env opts w true true c He eq_refl Hh Hc).
  destruct (Start_tail_success env true (apply_opts opts c) w Hgo Hok)
    as (w' & Hrun & Hact & Hinst & _ & _ & _ & Hroot & _).
  exists w'. split; [exact Hrun|]. split; [|exact Hroot].
  now rewrite Enabled_value, Hact, Hinst.
Qed.

Lemma Start_root_after_replacement_witness :
  (exists w', Start env_ok [] world_A = Ok tt w' /\
              value (Enabled w') = Some true /\ rootOperation w' = None) /\
  (exists w', Start env_ok [] world0 = Ok tt w' /\
              value (Enabled w') = Some true /\ rootOperation w' = Some 0).
Proof.
  split.
  - apply (Start_root_after_replacement env_ok [] world_A true cfg0
             eq_refl eq_refl eq_refl eq_refl eq_refl world_ok_world_A).
  - apply (Start_root_after_replacement env_ok [] world0 true cfg0
             eq_refl eq_refl eq_refl eq_refl eq_refl
             (world_ok_no_active world0 eq_refl)).
Defined.

(** [Stop] on a process whose active instance is started releases what
    that instance holds: there is no active instance and [Enabled] is
    false; the instance is not started and has no handle; the handle it had
    is closed, its limiter is stopped, the registry root is nil, the
    remote-configuration client is stopped and blocking is disabled. *)
Theorem Stop_releases w a i :
  activeAppSec w = Some a ->
  instances w !! a = Some i ->
  inst_ok w i = true ->
  started i = true ->
  exists w' i' h t,
    Stop w = Ok tt w' /\
    activeAppSec w' = None /\ value (Enabled w') = Some false /\
    instances w' !! a = Some i' /\ started i' = false /\ wafHandle i' = None /\
    wafHandle i = Some h /\ handle_closed w' h = true /\
    limiter i = Some t /\ ticker_running w' t = false /\
    rootOperation w' = None /\
    clientRunning (rc w') = false /\ blocking (rc w') = false.
Proof.
  intros Ha Hi Hok Hs. unfold Stop.
  rewrite (setActiveAppSec_active None w a i Ha Hi Hok).
  destruct (inst_ok_started w i Hok Hs) as (h & t & Hh & Hl & _).
  destruct (torn_down_stopped a i (locked a w) Hi
              (inst_ok_mono _ _ i (Nat.le_refl _) (Nat.le_refl _) Hok) Hs)
    as (i' & Q1 & Q2 & Q3 & Q4 & Q5).
  exists (published None (torn_down a i (locked a w))), i', h, t.
  split; [reflexivity|]. split; [reflexivity|]. split; [now rewrite Enabled_value|].
  split; [exact Q1|]. split; [exact Q2|]. split; [exact Q3|].
  split; [exact Hh|]. split; [exact (Q4 h Hh)|].
  split; [exact Hl|]. split; [exact (Q5 t Hl)|].
  unfold torn_down. rewrite Hs. repeat split.
Qed.

Lemma Stop_releases_witness :
  exists w',
    Stop world_A = Ok tt w' /\ value (Enabled w') = Some false /\
    handle_closed w' 0 = true /\ ticker_running w' 0 = false.
Proof.
  destruct (Stop_releases world_A 0
              {| cfg := cfg0; limiter := Some 0; wafHandle := Some 0; started := true |}
              eq_refl eq_refl eq_refl eq_refl)
    as (w' & i' & h & t & H1 & _ & H3 & _ & _ & _ & Hh & H8 & Hl & H10 & _).
  injection Hh as <-. injection Hl as <-.
  exists w'. auto.
Defined.

Lemma ticker_running_beyond w t :
  length (tickers w) <= t -> ticker_running w t = false.
Proof.
  intros H. unfold ticker_running. now rewrite lookup_ge_None_2.
Qed.

(** [Stop] on a started active instance, with what it leaves untouched. *)
Lemma Stop_active_started w a i h t :
  activeAppSec w = Some a -> instances w !! a = Some i ->
  inst_ok w i = true -> started i = true ->
  wafHandle i = Some h -> limiter i = Some t ->
  exists w',
    Stop w = Ok tt w' /\
    activeAppSec w' = None /\
    rootOperation w' = None /\
    ticker_running w' t = false /\
    handle_closed w' h = true /\
    (forall t', t' <> t -> tickers w' !! t' = tickers w !! t') /\
    (forall h', h' <> h -> handles w' !! h' = handles w !! h') /\
    length (tickers w') = length (tickers w) /\
    length (handles w') = length (handles w).
Proof.
  intros Ha Hi Hok Hs Hh Hl. unfold Stop.
  rewrite (setActiveAppSec_active None w a i Ha Hi Hok).
  destruct (torn_down_stopped a i (locked a w) Hi
              (inst_ok_mono _ _ i (Nat.le_refl _) (Nat.le_refl _) Hok) Hs)
    as (i' & _ & _ & _ & Q4 & Q5).
  destruct (torn_down_lengths a i (locked a w)) as (_ & L2 & L3).
  eexists. split; [reflexivity|]. split; [reflexivity|].
  split; [cbn [published rootOperation]; unfold torn_down; now rewrite Hs|].
  split; [exact (Q5 t Hl)|]. split; [exact (Q4 h Hh)|].
  split; [|split; [|split; [exact L2|exact L3]]].
  - intros t' Hne. cbn [published tickers].
    rewrite torn_down_tickers_ne; [reflexivity|]. intros _. congruence.
  - intros h' Hne. cbn [published handles].
    rewrite torn_down_handles_ne; [reflexivity|]. intros _. congruence.
Qed.

(** [Start] under explicit enablement followed by [Stop], in a process
    with no active instance, leaves no active instance, [Enabled] false and
    the registry root nil; the handle it created is closed, no limiter is
    running that was not running before, and the handles that existed
    before are as they were. *)
Theorem Start_Stop_round_trip env opts w enabled c :
  config_IsEnabled env = (enabled, true, None) ->
  enabled = true ->
  fst (waf_Health env) = true ->
  config_NewConfig env = (c, None) ->
  start_fails env (apply_opts opts c) = false ->
  activeAppSec w = None ->
  exists w1 w2,
    Start env opts w = Ok tt w1 /\
    Stop w1 = Ok tt w2 /\
    activeAppSec w2 = None /\
    value (Enabled w2) = Some false /\
    rootOperation w2 = None /\
    handle_closed w2 (length (handles w)) = true /\
    (forall t, ticker_running w2 t = true -> ticker_running w t = true) /\
    (forall h, h < length (handles w) -> handles w2 !! h = handles w !! h).
Proof.
  intros He -> Hh Hc Hgo Hn.
  pose proof (world_ok_no_active w Hn) as Hok.
  assert (Has : active_started w = false) by (unfold active_started; now rewrite Hn).
  rewrite (Start_reaches_tail env opts w true true c He eq_refl Hh Hc).
  destruct (Start_tail_success env true (apply_opts opts c) w Hgo Hok)
    as (w1 & Hrun & Hact & Hinst & _ & L2 & L3 & _ & Hnew & Hframe & _).
  destruct (Hframe Has) as (_ & Ft & Fh).
  assert (Hok1 : inst_ok w1 {| cfg := apply_opts opts c;
                               limiter := Some (length (tickers w));
                               wafHandle := Some (length (handles w));
                               started := true |} = true).
  { unfold inst_ok. simpl. rewrite L2, L3, andb_true_iff, !Nat.ltb_lt. lia. }
  destruct (Stop_active_started w1 _ _ _ _ Hact Hinst Hok1 eq_refl eq_refl eq_refl)
    as (w2 & Hstop & S1 & S2 & S3 & S4 & S5 & S6 & S7 & S8).
  exists w1, w2. split; [exact Hrun|]. split; [exact Hstop|].
  split; [exact S1|]. split; [now rewrite Enabled_value, S1|].
  split; [exact S2|]. split; [exact S4|]. split.
  - intros t Ht.
    destruct (Nat.lt_trichotomy t (length (tickers w))) as [Hlt|[->|Hgt]].
    + unfold ticker_running in *. rewrite S5, Ft in Ht by lia. exact Ht.
    + congruence.
    + rewrite ticker_running_beyond in Ht by lia. discriminate.
  - intros h Hlt. rewrite S6 by lia. now apply Fh.
Qed.

Lemma Start_Stop_round_trip_witness :
  exists w1 w2,
    Start env_ok [] world0 = Ok tt w1 /\
    Stop w1 = Ok tt w2 /\
    value (Enabled w2) = Some false /\
    (forall t, ticker_running w2 t = true -> ticker_running world0 t = true).
Proof.
  destruct (Start_Stop_round_trip env_ok [] world0 true cfg0
              eq_refl eq_refl eq_refl eq_refl eq_refl eq_refl)
    as (w1 & w2 & H1 & H2 & _ & H4 & _ & _ & H7 & _).
  exists w1, w2. auto.
Defined.

(** [start] on an instance that is already started replaces its limiter
    and its handle: the new limiter is running, the new handle is the
    registry root, the previous handle is closed, and the previous limiter
    is left as it was, still running if it was. *)
Theorem start_again_keeps_old_limiter env a i w h t :
  instances w !! a = Some i ->
  started i = true ->
  inst_ok w i = true ->
  wafHandle i = Some h ->
  limiter i = Some t ->
  load_fatal env = false ->
  newWAFHandle_err env (RulesManager_Latest (cfg i)) = None ->
  exists w' i',
    start env a w = Ok None w' /\
    instances w' !! a = Some i' /\
    started i' = true /\
    limiter i' = Some (length (tickers w)) /\
    wafHandle i' = Some (length (handles w)) /\
    ticker_running w' (length (tickers w)) = true /\
    ticker_running w' t = ticker_running w t /\
    handle_closed w' h = true /\
    handle_closed w' (length (handles w)) = false /\
    rootOperation w' = Some (length (handles w)).
Proof.
  intros Hi Hs Hok Hh Hl Hf Hn.
  destruct (inst_ok_started w i Hok Hs) as (h0 & t0 & Hh0 & Hl0 & Hhlt & Htlt).
  assert (h0 = h) by congruence. assert (t0 = t) by congruence. subst h0 t0.
  destruct (lookup_lt_is_Some_2 _ _ Hhlt) as [hd Hhd].
  pose proof (lookup_lt_Some _ _ _ Hi) as Hlen.
  rewrite (start_success env a i w Hi (fun h' => inst_ok_handle w i h' Hok) Hf Hn).
  exists (started_world env a i w),
         {| cfg := cfg i; limiter := Some (length (tickers w));
            wafHandle := Some (length (handles w)); started := true |}.
  split; [reflexivity|].
  unfold started_world, ticker_running, handle_closed, close_handle. simpl.
  rewrite Hh, (lookup_app_l (handles w)), Hhd by lia.
  rewrite list_lookup_insert_eq by lia.
  rewrite list_lookup_middle by reflexivity.
  rewrite (lookup_app_l (tickers w)) by lia.
  rewrite list_lookup_insert_eq by (rewrite length_app; simpl; lia).
  rewrite list_lookup_insert_ne by lia.
  rewrite list_lookup_middle by reflexivity.
  repeat split.
Qed.

Lemma start_again_keeps_old_limiter_witness :
  exists w' i',
    start env_ok 0 world_A = Ok None w' /\
    instances w' !! 0 = Some i' /\
    limiter i' = Some 1 /\
    ticker_running w' 0 = true /\ ticker_running w' 1 = true.
Proof.
  destruct (start_again_keeps_old_limiter env_ok 0
              {| cfg := cfg0; limiter := Some 0; wafHandle := Some 0; started := true |}
              world_A 0 0 eq_refl eq_refl eq_refl eq_refl eq_refl eq_refl eq_refl)
    as (w' & i' & H1 & H2 & _ & H4 & _ & H6 & H7 & _).
  exists w', i'. split; [exact H1|]. split; [exact H2|]. split; [exact H4|].
  split; [rewrite H7; reflexivity|exact H6].
Defined.

(** What [start] and [stop] leave alone.  On an instance that satisfies
    the invariant (and, for [start], whose rate limit is not zero) the call
    returns, and it leaves as they were: the active instance, the number of
    instances, every other instance, the instance's own configuration,
    every limiter and every handle that is not the instance's own, the
    remote-configuration client and the subscription to remote activation.
    The registry root and RC blocking are process-wide state that the call
    does change: [root_and_blocking] gives them for each outcome. *)
Theorem start_stop_frame a c w i :
  instances w !! a = Some i ->
  inst_ok w i = true ->
  (forall env, c = CallStart env -> TraceRateLimit (cfg i) <> 0%Z) ->
  exists w',
    call a c w = Ok tt w' /\
    activeAppSec w' = activeAppSec w /\
    length (instances w') = length (instances w) /\
    (forall a', a' <> a -> instances w' !! a' = instances w !! a') /\
    (cfg <$> instances w' !! a) = Some (cfg i) /\
    (forall t, t < length (tickers w) -> limiter i <> Some t ->
               tickers w' !! t = tickers w !! t) /\
    (forall h, h < length (handles w) -> wafHandle i <> Some h ->
               handles w' !! h = handles w !! h) /\
    clientRunning (rc w') = clientRunning (rc w) /\
    remoteActivation (rc w') = remoteActivation (rc w) /\
    (rootOperation w', blocking (rc w')) = root_and_blocking c i w.
Proof.
  intros Hi Hok _. pose proof (lookup_lt_Some _ _ _ Hi) as Hlen.
  unfold root_and_blocking. destruct c as [env|]; simpl.
  - unfold bind, start_fails. destruct (load_fatal env) eqn:Hf.
    + destruct (load_fatal_inv env Hf) as [e He].
      rewrite (start_fatal env a w e He). exists w. rewrite Hi. repeat split; auto.
    + destruct (newWAFHandle_err env (RulesManager_Latest (cfg i))) as [e|] eqn:Hn.
      * rewrite (start_failure env a i w e Hi Hf Hn). eexists.
        split; [reflexivity|]. simpl.
        rewrite length_insert, list_lookup_insert_eq by lia.
        repeat split; try lia.
        -- intros a' Hne. now rewrite list_lookup_insert_ne.
        -- intros t Ht _. now rewrite lookup_app_l.
      * rewrite (start_success env a i w Hi (fun h => inst_ok_handle w i h Hok) Hf Hn).
        eexists. split; [reflexivity|]. simpl.
        rewrite length_insert, list_lookup_insert_eq by lia.
        repeat split; try lia.
        -- intros a' Hne. now rewrite list_lookup_insert_ne.
        -- intros t Ht _. now rewrite lookup_app_l.
        -- intros h Hh Hne. unfold close_handle.
           destruct (wafHandle i) as [h0|]; [|now rewrite lookup_app_l].
           destruct ((handles w ++ [new_handle i]) !! h0);
             [|now rewrite lookup_app_l].
           rewrite list_lookup_insert_ne by congruence. now rewrite lookup_app_l.
  - destruct (started i) eqn:Hs.
    + rewrite (stop_started_ok w a i Hi Hs Hok). eexists.
      split; [reflexivity|]. simpl.
      rewrite length_insert, list_lookup_insert_eq by lia.
      repeat split; try lia.
      * intros a' Hne. now rewrite list_lookup_insert_ne.
      * intros t Ht Hne. unfold stop_ticker.
        destruct (limiter i) as [t0|]; [|reflexivity].
        destruct (tickers w !! t0); [|reflexivity].
        now rewrite list_lookup_insert_ne by congruence.
      * intros h Hh Hne. unfold close_handle.
        destruct (wafHandle i) as [h0|]; [|reflexivity].
        destruct (handles w !! h0); [|reflexivity].
        now rewrite list_lookup_insert_ne by congruence.
    + rewrite (stop_not_started w a i Hi Hs). exists w. rewrite Hi. repeat split; auto.
Qed.

Lemma start_stop_frame_witness :
  exists w',
    call 0 (CallStart env_ok) world_idle = Ok tt w' /\
    activeAppSec w' = None /\ length (instances w') = 1 /\
    (rootOperation w', blocking (rc w')) = (Some 0, true).
Proof.
  destruct (start_stop_frame 0 (CallStart env_ok) world_idle (fresh_instance cfg0)
              eq_refl eq_refl)
    as (w' & H1 & H2 & H3 & _ & _ & _ & _ & _ & _ & H10).
  - intros env _. discriminate.
  - exists w'. split; [exact H1|]. split; [exact H2|]. split; [exact H3|exact H10].
Defined.

(** A published dormant instance follows remote activation: a later
    successful [start] makes [Enabled] true, and the [stop] that follows
    makes it false again, with the instance still published, its limiter
    stopped, its handle closed and the registry root nil. *)
Theorem dormant_start_then_stop env w b i :
  activeAppSec w = Some b ->
  instances w !! b = Some i ->
  started i = false ->
  wafHandle i = None ->
  load_fatal env = false ->
  newWAFHandle_err env (RulesManager_Latest (cfg i)) = None ->
  exists w1 w2,
    start env b w = Ok None w1 /\
    value (Enabled w1) = Some true /\
    stop b w1 = Ok tt w2 /\
    value (Enabled w2) = Some false /\
    activeAppSec w2 = Some b /\
    ticker_running w2 (length (tickers w)) = false /\
    handle_closed w2 (length (handles w)) = true /\
    rootOperation w2 = None.
Proof.
  intros Ha Hi Hs Hh Hf Hn. pose proof (lookup_lt_Some _ _ _ Hi) as Hlen.
  assert (Hv : forall h, wafHandle i = Some h -> is_Some (handles w !! h))
    by (intros h Hh'; congruence).
  rewrite (start_success env b i w Hi Hv Hf Hn).
  set (i1 := {| cfg := cfg i; limiter := Some (length (tickers w));
                wafHandle := Some (length (handles w)); started := true |}).
  assert (Hi1 : instances (started_world env b i w) !! b = Some i1)
    by (simpl; now apply list_lookup_insert_eq).
  assert (Hok1 : inst_ok (started_world env b i w) i1 = true).
  { unfold inst_ok. simpl. rewrite length_close_handle, !length_app. simpl.
    rewrite andb_true_iff, !Nat.ltb_lt. lia. }
  exists (started_world env b i w), (stopped_world b i1 (started_world env b i w)).
  rewrite (stop_started_ok _ b i1 Hi1 eq_refl Hok1).
  split; [reflexivity|].
  split; [rewrite Enabled_value; simpl; now rewrite Ha, list_lookup_insert_eq|].
  split; [reflexivity|].
  split; [rewrite Enabled_value; simpl; rewrite Ha, list_lookup_insert_eq;
          [reflexivity|rewrite length_insert; lia]|].
  split; [exact Ha|].
  unfold ticker_running, handle_closed, stopped_world, stop_ticker, close_handle.
  simpl. rewrite Hh. simpl.
  rewrite !list_lookup_middle by reflexivity.
  rewrite !list_lookup_insert_eq by (rewrite length_app; simpl; lia).
  repeat split.
Qed.

Lemma dormant_start_then_stop_witness :
  exists w0 w1 w2,
    Start env_remote [] world0 = Ok tt w0 /\
    start env_ok 0 w0 = Ok None w1 /\
    value (Enabled w1) = Some true /\
    stop 0 w1 = Ok tt w2 /\
    value (Enabled w2) = Some false.
Proof.
  exists (published (Some 0) (set_trace (fun t => t ++ [EvLock])
                               (prepared env_remote false cfg0 world0))).
  destruct (dormant_start_then_stop env_ok
              (published (Some 0) (set_trace (fun t => t ++ [EvLock])
                                     (prepared env_remote false cfg0 world0)))
              0 (fresh_instance cfg0)
              eq_refl eq_refl eq_refl eq_refl eq_refl eq_refl)
    as (w1 & w2 & H1 & H2 & H3 & H4 & _).
  exists w1, w2. split; [vm_compute; reflexivity|]. auto.
Defined.

(** [stop] is idempotent: on an instance that satisfies the invariant, a
    second [stop] right after the first returns without changing anything,
    so the handle is closed once and the limiter stopped once. *)
Theorem stop_idempotent w a :
  inst_inv w a ->
  exists w1,
    stop a w = Ok tt w1 /\ stop a w1 = Ok tt w1.
Proof.
  intros (i & Hi & Hok). pose proof (lookup_lt_Some _ _ _ Hi) as Hlen.
  destruct (started i) eqn:Hs.
  - exists (stopped_world a i w). split; [now apply stop_started_ok|].
    apply (stop_not_started _ a (stopped_instance i)); [|reflexivity].
    simpl. now apply list_lookup_insert_eq.
  - exists w. split; now apply (stop_not_started w a i).
Qed.

Lemma stop_idempotent_witness :
  exists w1, stop 0 world_A = Ok tt w1 /\ stop 0 w1 = Ok tt w1.
Proof.
  apply (stop_idempotent world_A 0).
  eexists. split; reflexivity.
Defined.
